(** * actstream.gfk: generic-relation resolution and batch selection

    A shallow embedding of [src/actstream/gfk.py] (GFKManager, GFKQuerySet,
    EmptyGFKQuerySet).  Python values are a small sum type, dicts are
    [gmap]s, sets are [gset]s, query-set objects live in a store addressed
    by references, and every data-access call is recorded in an event log.
    The host ORM (Django) and the [batch_select] package are collaborators
    of the module: they appear as fields of an environment record. *)

From stdpp Require Import gmap strings list fin_maps pretty.

(** ** Python values *)

(** The values that primary keys, type tags and stored columns take:
    [None], integers and (unicode) text. *)
Inductive pyval :=
  | PNone
  | PInt (z : Z)
  | PStr (s : string).

#[global] Instance pyval_eq_dec : EqDecision pyval.
Proof. solve_decision. Defined.

#[global] Instance pyval_countable : Countable pyval.
Proof.
  refine (inj_countable'
    (λ v, match v with
          | PNone => inl ()
          | PInt z => inr (inl z)
          | PStr s => inr (inr s)
          end)
    (λ x, match x with
          | inl _ => PNone
          | inr (inl z) => PInt z
          | inr (inr s) => PStr s
          end) _).
  by intros [].
Defined.

#[global] Instance pyval_inhabited : Inhabited pyval := populate PNone.

(** Python truthiness, as used by [if ct_id:]. *)
Definition truthy (v : pyval) : bool :=
  match v with
  | PNone => false
  | PInt z => negb (z =? 0)%Z
  | PStr s => negb (String.eqb s "")
  end.

(** [smart_unicode] of django.utils.encoding: the text form of a value. *)
Definition smart_unicode (v : pyval) : pyval :=
  match v with
  | PNone => PStr "None"
  | PInt z => PStr (pretty z)
  | PStr s => PStr s
  end.

(** [d.keys()] of a dict. *)
Definition keys {V} (d : gmap pyval V) : list pyval := (map_to_list d).*1.

(** ** Exceptions *)

Inductive exn :=
  | KeyError
  | TypeError
  | FieldDoesNotExist (fieldname : string).

#[global] Instance exn_eq_dec : EqDecision exn.
Proof. solve_decision. Defined.

Inductive result (A : Type) :=
  | Ok (a : A)
  | Raise (e : exn).
Arguments Ok {A} a.
Arguments Raise {A} e.

#[global] Instance result_eq_dec `{EqDecision A} : EqDecision (result A).
Proof. solve_decision. Defined.

(** ** Rows, target objects and row-type metadata *)

(** A row of some target table; [obj_addr] is the identity of the Python
    object that the secondary fetch built for it. *)
Record Obj := {
  obj_addr : nat;
  obj_pk : pyval
}.

#[global] Instance Obj_eq_dec : EqDecision Obj.
Proof. solve_decision. Defined.

(** A model instance of the primary result set: its key, its stored
    columns, the cache slots of its generic foreign keys (keyed by the
    descriptor's name) and the attributes attached by batch selection. *)
Record Row := {
  pk : pyval;
  columns : gmap string pyval;
  resolved : gmap string Obj;
  attached : gmap string (list Obj)
}.

#[global] Instance Row_eq_dec : EqDecision Row.
Proof. solve_decision. Defined.

(** [getattr(item, column)]: every instance carries all columns of its
    model; a column holding NULL reads as [None]. *)
Definition getattr (item : Row) (column : string) : pyval :=
  default PNone (columns item !! column).

(** [setattr(item, gfk.name, o)]: the descriptor of the generic foreign
    key keeps [o] in the cache slot of the field.  (The host's descriptor
    also stores the type and key of [o] in the two columns of the field;
    the resolver reads each field of a row once, before this.) *)
Definition setattr (item : Row) (gfk_name : string) (o : Obj) : Row :=
  {| pk := pk item;
     columns := columns item;
     resolved := <[gfk_name := o]> (resolved item);
     attached := attached item |}.

Record GenericForeignKey := {
  name : string;
  ct_field : string;
  fk_field : string
}.

Inductive VirtualField :=
  | Generic (g : GenericForeignKey)
  | OtherVirtual (field_name : string).

(** The part of [model._meta] that the module reads. *)
Record Model := {
  virtual_fields : list VirtualField;
  (** [_meta.get_field(f).column] *)
  get_field_column : string → string;
  (** the relation names that exist on the row type *)
  relations : gset string
}.

Definition isinstance_GenericForeignKey (v : VirtualField)
  : option GenericForeignKey :=
  match v with
  | Generic g => Some g
  | OtherVirtual _ => None
  end.

(** Lines 85-88: the generic foreign keys of the model, restricted to
    [args] when some are given. *)
Definition gfk_fields (m : Model) (args : list string)
  : list GenericForeignKey :=
  let gfks := omap isinstance_GenericForeignKey (virtual_fields m) in
  match args with
  | [] => gfks
  | _ => filter (λ g, name g ∈ args) gfks
  end.

(** ** The environment: settings, content types, target tables *)

(** A target model class: its [objects] manager and, when the default
    manager has it, [all_with_deleted]; each answers
    [select_related().filter(pk__in=ids)]. *)
Record ModelClass := {
  all_with_deleted : option (list pyval → list Obj);
  objects : list pyval → list Obj
}.

Record ContentType := {
  model_class : ModelClass
}.

(** ** Batch specifications *)

(** Modelled from the spec: the [Batch] class of the batch_select package
    is not part of this module.  A specification names a relation, a target
    attribute and replay directives, and is compared by value. *)
Record Batch := {
  m2m_fieldname : string;
  target_field_name : string;
  replay : list string
}.

#[global] Instance Batch_eq_dec : EqDecision Batch.
Proof. solve_decision. Defined.

#[global] Instance Batch_countable : Countable Batch.
Proof.
  refine (inj_countable'
    (λ b, (m2m_fieldname b, target_field_name b, replay b))
    (λ t, {| m2m_fieldname := t.1.1;
             target_field_name := t.1.2;
             replay := t.2 |}) _).
  by intros [].
Defined.

Record Env := {
  (** settings.FETCH_RELATIONS and settings.USE_PREFETCH *)
  FETCH_RELATIONS : bool;
  USE_PREFETCH : bool;
  (** [hasattr(self, 'prefetch_related')] *)
  has_prefetch_related : bool;
  (** [ContentType.objects.using(db).in_bulk(ids)] *)
  in_bulk : list pyval → gmap pyval ContentType;
  (** [Batch(s).target_field_name]: the default target attribute *)
  default_target_field_name : string → string;
  (** the link records of relation [m2m] for the given owner keys,
      grouped by owner key, after the replay directives *)
  related_links : string → list string → list pyval → gmap pyval (list Obj)
}.

(** ** Event log *)

Inductive event :=
  | PrimaryQuery
  | BatchFetch (target m2m : string)
  | ContentTypeLookup (ids : list pyval)
  | SecondaryFetch (ct_id : pyval) (ids : list pyval).

#[global] Instance event_eq_dec : EqDecision event.
Proof. solve_decision. Defined.

Definition is_secondary_fetch (e : event) : bool :=
  match e with
  | SecondaryFetch _ _ => true
  | _ => false
  end.

Definition is_fetch_for (ct_id : pyval) (e : event) : bool :=
  match e with
  | SecondaryFetch c _ => bool_decide (c = ct_id)
  | _ => false
  end.

(** ** The resolver on a materialized row set (lines 93-125) *)

Abbreviation ct_map_t := (gmap pyval (gmap pyval (string * pyval))).
Abbreviation data_map_t := (gmap (pyval * pyval) Obj).

(** Lines 97-100: [ct_map.setdefault(ct_id, {})[smart_unicode(fk)] =
    (gfk.name, item.pk)]. *)
Definition record_reference (m : Model) (item : Row)
    (ct_map : ct_map_t) (gfk : GenericForeignKey) : ct_map_t :=
  let ct_id_field := get_field_column m (ct_field gfk) in
  let ct_id := getattr item ct_id_field in
  let items_ := default ∅ (ct_map !! ct_id) in
  <[ct_id :=
      <[smart_unicode (getattr item (fk_field gfk)) := (name gfk, pk item)]>
        items_]> ct_map.

(** Lines 95-100: the first pass over the rows. *)
Definition first_pass (m : Model) (gfks : list GenericForeignKey)
    (rows : list Row) : ct_map_t :=
  foldl (λ ct_map item, foldl (record_reference m item) ct_map gfks) ∅ rows.

(** Lines 112-114: the loop over the objects of one secondary fetch. *)
Fixpoint record_objects (ct_id : pyval) (items_ : gmap pyval (string * pyval))
    (objs : list Obj) (data_map : data_map_t) : result data_map_t :=
  match objs with
  | [] => Ok data_map
  | o :: objs' =>
      match items_ !! obj_pk o with
      | None => Raise KeyError
      | Some _ =>
          record_objects ct_id items_ objs' (<[(ct_id, obj_pk o) := o]> data_map)
      end
  end.

(** Lines 108-111: the manager queried for a target class. *)
Definition target_objects (mc : ModelClass) : list pyval → list Obj :=
  match all_with_deleted mc with
  | Some with_deleted => with_deleted
  | None => objects mc
  end.

(** Lines 104-114: one secondary fetch per truthy type tag of [ct_map];
    returns the fetches issued and the result map, or the error that
    stopped the loop. *)
Fixpoint fetch_targets (ctypes : gmap pyval ContentType)
    (groups : list (pyval * gmap pyval (string * pyval)))
    (data_map : data_map_t) : list event * result data_map_t :=
  match groups with
  | [] => ([], Ok data_map)
  | (ct_id, items_) :: groups' =>
      if truthy ct_id then
        match ctypes !! ct_id with
        | None => ([], Raise KeyError)
        | Some ct =>
            let ids := keys items_ in
            let fetched := target_objects (model_class ct) ids in
            match record_objects ct_id items_ fetched data_map with
            | Raise e => ([SecondaryFetch ct_id ids], Raise e)
            | Ok data_map' =>
                let '(evs, r) := fetch_targets ctypes groups' data_map' in
                (SecondaryFetch ct_id ids :: evs, r)
            end
        end
      else fetch_targets ctypes groups' data_map
  end.

(** Lines 118-125, one field of one row: returns the row as it is after the
    step and the error raised, if any. *)
Definition resolve_reference (m : Model) (data_map : data_map_t)
    (item : Row) (gfk : GenericForeignKey) : Row * option exn :=
  if decide (getattr item (fk_field gfk) = PNone) then (item, None)
  else
    let ct_id_field := get_field_column m (ct_field gfk) in
    match data_map !! (getattr item ct_id_field,
                       smart_unicode (getattr item (fk_field gfk))) with
    | None => (item, Some KeyError)
    | Some o => (setattr item (name gfk) o, None)
    end.

(** Lines 117-125: the inner loop over the fields of one row. *)
Fixpoint resolve_item (m : Model) (data_map : data_map_t)
    (gfks : list GenericForeignKey) (item : Row) : Row * option exn :=
  match gfks with
  | [] => (item, None)
  | gfk :: gfks' =>
      match resolve_reference m data_map item gfk with
      | (item', None) => resolve_item m data_map gfks' item'
      | (item', Some e) => (item', Some e)
      end
  end.

(** Lines 116-125: the second pass; the rows are updated in place, so an
    error leaves the rows before it resolved and those after it as they
    were. *)
Fixpoint second_pass (m : Model) (data_map : data_map_t)
    (gfks : list GenericForeignKey) (rows : list Row)
  : list Row * option exn :=
  match rows with
  | [] => ([], None)
  | item :: rows' =>
      match resolve_item m data_map gfks item with
      | (item', None) =>
          let '(rest, err) := second_pass m data_map gfks rows' in
          (item' :: rest, err)
      | (item', Some e) => (item' :: rows', Some e)
      end
  end.

(** Lines 93-114 on the materialized rows: the grouping, the bulk lookup
    of the content types and the secondary fetches; returns the events
    issued and the result map, or the error that stopped the loop. *)
Definition build_data_map (env : Env) (m : Model)
    (gfks : list GenericForeignKey) (rows : list Row)
  : list event * result data_map_t :=
  let ct_map := first_pass m gfks rows in
  let ctypes := in_bulk env (keys ct_map) in
  let '(evs, r) := fetch_targets ctypes (map_to_list ct_map) ∅ in
  (ContentTypeLookup (keys ct_map) :: evs, r).

(** Lines 93-125 on the materialized rows of the clone: the events issued,
    the rows as they are left, and the error raised, if any. *)
Definition resolve_rows (env : Env) (m : Model)
    (gfks : list GenericForeignKey) (rows : list Row)
  : list event * (list Row * option exn) :=
  match build_data_map env m gfks rows with
  | (evs, Raise e) => (evs, (rows, Some e))
  | (evs, Ok data_map) => (evs, second_pass m data_map gfks rows)
  end.

(** ** Query-set objects and the store *)

Inductive QuerySetClass :=
  | GFKQuerySet_class
  | EmptyGFKQuerySet_class.

#[global] Instance QuerySetClass_eq_dec : EqDecision QuerySetClass.
Proof. solve_decision. Defined.

(** A query-set object.  [query] stands for the primary query: the keys and
    stored columns of the rows it selects.  [_batches] is [None] while the
    attribute is absent. *)
Record QuerySet := {
  klass : QuerySetClass;
  model : Model;
  query : list (pyval * gmap string pyval);
  _batches : option (gset Batch);
  _result_cache : option (list Row);
  _prefetch_related_lookups : list string
}.

Definition ref := nat.

(** The store of query-set objects and the log of data-access calls. *)
Record World := {
  heap : list QuerySet;
  log : list event
}.

(** State-and-exception monad: a raised exception keeps the state reached. *)
Definition M (A : Type) : Type := World → result A * World.

#[global] Instance M_ret : MRet M := λ A a w, (Ok a, w).

#[global] Instance M_bind : MBind M := λ A B f c w,
  match c w with
  | (Ok a, w') => f a w'
  | (Raise e, w') => (Raise e, w')
  end.

Definition raise {A} (e : exn) : M A := λ w, (Raise e, w).

Definition lift_result {A} (r : result A) : M A := λ w, (r, w).

Definition emit (evs : list event) : M unit := λ w,
  (Ok (), {| heap := heap w; log := log w ++ evs |}).

(** Reading an object; a reference outside the store has no Python
    counterpart and reads as a [TypeError]. *)
Definition deref (a : ref) : M QuerySet := λ w,
  match heap w !! a with
  | Some qs => (Ok qs, w)
  | None => (Raise TypeError, w)
  end.

Definition alloc (qs : QuerySet) : M ref := λ w,
  (Ok (length (heap w)), {| heap := heap w ++ [qs]; log := log w |}).

Definition update (a : ref) (f : QuerySet → QuerySet) : M unit := λ w,
  (Ok (), {| heap := alter f a (heap w); log := log w |}).

Definition set_batches (batches : option (gset Batch)) (qs : QuerySet)
  : QuerySet :=
  {| klass := klass qs; model := model qs; query := query qs;
     _batches := batches;
     _result_cache := _result_cache qs;
     _prefetch_related_lookups := _prefetch_related_lookups qs |}.

Definition set_result_cache (rows : option (list Row)) (qs : QuerySet)
  : QuerySet :=
  {| klass := klass qs; model := model qs; query := query qs;
     _batches := _batches qs;
     _result_cache := rows;
     _prefetch_related_lookups := _prefetch_related_lookups qs |}.

Definition add_prefetch_related_lookups (lookups : list string)
    (qs : QuerySet) : QuerySet :=
  {| klass := klass qs; model := model qs; query := query qs;
     _batches := _batches qs;
     _result_cache := _result_cache qs;
     _prefetch_related_lookups := _prefetch_related_lookups qs ++ lookups |}.

(** [QuerySet._clone] of the host: a new object on the same query, of class
    [klass'] when given, with nothing evaluated and no [_batches]. *)
Definition super_clone (qs : QuerySet) (klass' : option QuerySetClass)
  : QuerySet :=
  {| klass := default (klass qs) klass';
     model := model qs;
     query := query qs;
     _batches := None;
     _result_cache := None;
     _prefetch_related_lookups := _prefetch_related_lookups qs |}.

(** A model instance as the primary query builds it: nothing resolved,
    nothing attached. *)
Definition fresh_row (r : pyval * gmap string pyval) : Row :=
  {| pk := r.1; columns := r.2; resolved := ∅; attached := ∅ |}.

(** [super().iterator()]: the rows of the primary query; an empty query
    set selects nothing and asks the database nothing. *)
Definition super_iterator (qs : QuerySet) : list event * list Row :=
  match klass qs with
  | GFKQuerySet_class => ([PrimaryQuery], fresh_row <$> query qs)
  | EmptyGFKQuerySet_class => ([], [])
  end.

(** ** The batch_select package *)

(** Modelled from the spec: [_check_field_exists] of the batch_select
    package (not part of this module) validates that the named relation
    exists on the row type and fails with a configuration error naming the
    field otherwise. *)
Definition _check_field_exists (m : Model) (fieldname : string)
  : result string :=
  if decide (fieldname ∈ relations m) then Ok fieldname
  else Raise (FieldDoesNotExist fieldname).

(** Modelled from the spec: the constructor [Batch(s)] of the batch_select
    package names relation [s] and defaults its target attribute. *)
Definition Batch_init (env : Env) (s : string) : Batch :=
  {| m2m_fieldname := s;
     target_field_name := default_target_field_name env s;
     replay := [] |}.

(** Modelled from the spec: the batch collection fetcher [batch_select] of
    the batch_select package (section 4.3).  One fetch selects the link
    records of all owner keys; every row receives its group under the
    target attribute, an empty one when it has no links. *)
Definition batch_select_instances (env : Env) (instances : list Row)
    (target fieldname : string) (replay_ : list string) : list Row :=
  let ids := pk <$> instances in
  let select := related_links env fieldname replay_ ids in
  (λ instance,
     {| pk := pk instance;
        columns := columns instance;
        resolved := resolved instance;
        attached :=
          <[target := default [] (select !! pk instance)]> (attached instance)
     |}) <$> instances.

(** ** GFKQuerySet *)

Inductive BatchArg :=
  | BStr (s : string)
  | BObj (b : Batch).

Definition set_target_field_name (b : Batch) (n : string) : Batch :=
  {| m2m_fieldname := m2m_fieldname b;
     target_field_name := n;
     replay := replay b |}.

Module GFKQuerySet.

(** Lines 39-44. *)
Definition _clone (self : ref) (klass' : option QuerySetClass) : M ref :=
  qs ← deref self;
  let query := super_clone qs klass' in
  let batches := _batches qs in
  let query :=
    match batches with
    | Some b => if decide (b = ∅) then query else set_batches (Some b) query
    | None => query
    end in
  alloc query.

(** Lines 46-54.  A specification is a value: the assignment of line 51
    yields the specification with the given target attribute. *)
Definition _create_batch (env : Env) (m : Model) (batch_or_str : BatchArg)
    (target_field_name : option string) : result Batch :=
  let batch :=
    match batch_or_str with
    | BStr s => Batch_init env s
    | BObj b => b
    end in
  let batch :=
    match target_field_name with
    | Some n => if decide (n = "") then batch
                else set_target_field_name batch n
    | None => batch
    end in
  match _check_field_exists m (m2m_fieldname batch) with
  | Raise e => Raise e
  | Ok _ => Ok batch
  end.

(** The generator expressions of lines 58-60, consumed by [set(...)] in
    order: the first error stops the construction. *)
Fixpoint create_batches (env : Env) (m : Model)
    (args : list (option string * BatchArg)) : result (list Batch) :=
  match args with
  | [] => Ok []
  | (target, batch) :: args' =>
      match _create_batch env m batch target with
      | Raise e => Raise e
      | Ok b =>
          match create_batches env m args' with
          | Raise e => Raise e
          | Ok bs => Ok (b :: bs)
          end
      end
  end.

(** Lines 56-64; [named_batches] lists the keyword arguments as
    [named_batches.items()] does. *)
Definition batch_select (env : Env) (self : ref) (batches : list BatchArg)
    (named_batches : list (string * BatchArg)) : M ref :=
  qs ← deref self;
  positional ← lift_result
    (create_batches env (model qs) ((λ b, (None, b)) <$> batches));
  named ← lift_result
    (create_batches env (model qs)
       ((λ nb, (Some nb.1, nb.2)) <$> named_batches));
  let batches' : gset Batch :=
    default ∅ (_batches qs) ∪ list_to_set positional ∪ list_to_set named in
  query ← _clone self None;
  _ ← update query (set_batches (Some batches'));
  mret query.

(** Lines 71-75: the loop over the attached specifications. *)
Definition apply_batches (env : Env) (batches : list Batch)
    (results : list Row) : list Row :=
  foldl (λ results batch,
           batch_select_instances env results (target_field_name batch)
             (m2m_fieldname batch) (replay batch))
        results batches.

(** Lines 66-77.  The host's iterator is consumed as a whole here; the log
    records the primary query when the iterator is built. *)
Definition iterator (env : Env) (self : ref) : M (list Row) :=
  qs ← deref self;
  let '(evs, result_iter) := super_iterator qs in
  _ ← emit evs;
  match _batches qs with
  | Some batches =>
      if decide (batches = ∅) then mret result_iter
      else
        _ ← emit ((λ b, BatchFetch (target_field_name b) (m2m_fieldname b))
                    <$> elements batches);
        mret (apply_batches env (elements batches) result_iter)
  | None => mret result_iter
  end.

(** [for item in qs]: the host evaluates the query set through
    [iterator()] once and keeps the rows in [_result_cache]. *)
Definition iter (env : Env) (self : ref) : M (list Row) :=
  qs ← deref self;
  match _result_cache qs with
  | Some rows => mret rows
  | None =>
      rows ← iterator env self;
      _ ← update self (set_result_cache (Some rows));
      mret rows
  end.

(** [QuerySet.prefetch_related] of the host: a clone carrying the lookups. *)
Definition prefetch_related (self : ref) (lookups : list string) : M ref :=
  clone ← _clone self None;
  _ ← update clone (add_prefetch_related_lookups lookups);
  mret clone.

(** Lines 79-127. *)
Definition fetch_generic_relations (env : Env) (self : ref)
    (args : list string) : M ref :=
  this ← deref self;
  qs ← _clone self None;
  if negb (FETCH_RELATIONS env) then mret qs
  else
    let gfk_fields := gfk_fields (model this) args in
    if USE_PREFETCH env && has_prefetch_related env
    then prefetch_related qs (name <$> gfk_fields)
    else
      rows ← iter env qs;
      let '(evs, (rows', err)) := resolve_rows env (model this) gfk_fields rows in
      _ ← emit evs;
      _ ← update qs (set_result_cache (Some rows'));
      match err with
      | Some e => raise e
      | None => mret qs
      end.

(** Lines 129-130. *)
Definition none (self : ref) : M ref :=
  _clone self (Some EmptyGFKQuerySet_class).

End GFKQuerySet.

Module EmptyGFKQuerySet.

(** Lines 134-135. *)
Definition fetch_generic_relations (self : ref) : M ref :=
  mret self.

End EmptyGFKQuerySet.

(** The call [qs.fetch_generic_relations] on field names: the method of
    the class of the receiver; the one of the empty class takes no field
    names. *)
Definition fetch_generic_relations (env : Env) (self : ref)
    (args : list string) : M ref :=
  this ← deref self;
  match klass this with
  | GFKQuerySet_class => GFKQuerySet.fetch_generic_relations env self args
  | EmptyGFKQuerySet_class =>
      match args with
      | [] => EmptyGFKQuerySet.fetch_generic_relations self
      | _ => raise TypeError
      end
  end.

(** ** GFKManager (lines 15-24) *)

Module GFKManager.

Definition get_query_set (m : Model) (q : list (pyval * gmap string pyval))
  : M ref :=
  alloc {| klass := GFKQuerySet_class; model := m; query := q;
           _batches := None; _result_cache := None;
           _prefetch_related_lookups := [] |}.

Definition none (m : Model) (q : list (pyval * gmap string pyval)) : M ref :=
  qs ← get_query_set m q;
  GFKQuerySet.none qs.

End GFKManager.

(** ** Notions used to state the properties *)

(** The type tag and the target id that a row stores for a field. *)
Definition type_tag (m : Model) (item : Row) (gfk : GenericForeignKey)
  : pyval :=
  getattr item (get_field_column m (ct_field gfk)).

Definition target_id (item : Row) (gfk : GenericForeignKey) : pyval :=
  getattr item (fk_field gfk).

(** The key under which the second pass looks a reference up. *)
Definition reference_key (m : Model) (item : Row) (gfk : GenericForeignKey)
  : pyval * pyval :=
  (type_tag m item gfk, smart_unicode (target_id item gfk)).

(** The type tags stored in the given fields of the rows. *)
Definition stored_type_tags (m : Model) (gfks : list GenericForeignKey)
    (rows : list Row) : gset pyval :=
  list_to_set (item ← rows; type_tag m item <$> gfks).

(** The secondary fetches of a log. *)
Definition secondary_fetches (evs : list event) : list event :=
  filter (λ e, is_secondary_fetch e) evs.

(** The fetch that the loop of lines 104-114 issues for one group. *)
Definition fetch_event (g : pyval * gmap pyval (string * pyval))
  : option event :=
  if truthy g.1 then Some (SecondaryFetch g.1 (keys g.2)) else None.

(** The specifications attached to a query set. *)
Definition attached_batches (qs : QuerySet) : gset Batch :=
  default ∅ (_batches qs).

(** [has ct_map ct key]: the grouping holds [key] under type tag [ct]. *)
Definition has (ct_map : ct_map_t) (ct key : pyval) : Prop :=
  ∃ items_, ct_map !! ct = Some items_ ∧ is_Some (items_ !! key).

(** The first pass as the specification words it (4.4, step 2): a field
    whose target id is null is skipped. *)
Definition record_reference_skipping_null (m : Model) (item : Row)
    (ct_map : ct_map_t) (gfk : GenericForeignKey) : ct_map_t :=
  if decide (target_id item gfk = PNone) then ct_map
  else record_reference m item ct_map gfk.

Definition first_pass_skipping_null (m : Model)
    (gfks : list GenericForeignKey) (rows : list Row) : ct_map_t :=
  foldl (λ ct_map item,
           foldl (record_reference_skipping_null m item) ct_map gfks) ∅ rows.

(** The referenced type tags as the specification counts them: the tags of
    the fields whose target id is not null. *)
Definition referenced_type_tags (m : Model) (gfks : list GenericForeignKey)
    (rows : list Row) : gset pyval :=
  list_to_set
    (item ← rows;
     gfk ← gfks;
     if decide (target_id item gfk = PNone) then [] else [type_tag m item gfk]).

(** The object that [_clone] builds from [qs]. *)
Definition cloned (qs : QuerySet) (klass' : option QuerySetClass)
  : QuerySet :=
  match _batches qs with
  | Some b =>
      if decide (b = ∅) then super_clone qs klass'
      else set_batches (Some b) (super_clone qs klass')
  | None => super_clone qs klass'
  end.

(** The fetches that [iterator()] issues for the attached specifications. *)
Definition batch_fetches (batches : list Batch) : list event :=
  (λ b, BatchFetch (target_field_name b) (m2m_fieldname b)) <$> batches.

(** The events and the rows of [iterator()] on an object. *)
Definition iterated (env : Env) (qs : QuerySet) : list event * list Row :=
  match _batches qs with
  | Some batches =>
      if decide (batches = ∅) then super_iterator qs
      else ((super_iterator qs).1 ++ batch_fetches (elements batches),
            GFKQuerySet.apply_batches env (elements batches)
              (super_iterator qs).2)
  | None => super_iterator qs
  end.

(** The relation that a specification argument names. *)
Definition relation_of (arg : BatchArg) : string :=
  match arg with
  | BStr s => s
  | BObj b => m2m_fieldname b
  end.

(** The specification that [_create_batch] builds from its arguments,
    before the relation is validated. *)
Definition built (env : Env) (arg : option string * BatchArg) : Batch :=
  let batch :=
    match arg.2 with
    | BStr s => Batch_init env s
    | BObj b => b
    end in
  match arg.1 with
  | Some n => if decide (n = "") then batch else set_target_field_name batch n
  | None => batch
  end.

(** The positional and keyword arguments of a call of [batch_select], in
    the order in which they are turned into specifications. *)
Definition batch_args (batches : list BatchArg)
    (named_batches : list (string * BatchArg))
  : list (option string * BatchArg) :=
  ((λ b, (None, b)) <$> batches)
  ++ ((λ nb, (Some nb.1, nb.2)) <$> named_batches).

(** Referential integrity of a row set in an environment: every truthy
    type tag of the grouping has a content type whose fetch returns only
    objects keyed by a requested id, and every non-null reference has a
    truthy type tag and a fetched object keyed by the text of its id. *)
Definition integral (env : Env) (m : Model) (gfks : list GenericForeignKey)
    (rows : list Row) : Prop :=
  let ct_map := first_pass m gfks rows in
  let ctypes := in_bulk env (keys ct_map) in
  (∀ ct items_, ct_map !! ct = Some items_ → truthy ct = true →
     ∃ c, ctypes !! ct = Some c
          ∧ ∀ o, o ∈ target_objects (model_class c) (keys items_) →
                 is_Some (items_ !! obj_pk o))
  ∧ (∀ item gfk, item ∈ rows → gfk ∈ gfks → target_id item gfk ≠ PNone →
       truthy (type_tag m item gfk) = true
       ∧ ∃ c items_ o,
           ctypes !! type_tag m item gfk = Some c
           ∧ ct_map !! type_tag m item gfk = Some items_
           ∧ o ∈ target_objects (model_class c) (keys items_)
           ∧ obj_pk o = smart_unicode (target_id item gfk)).

(** ** A concrete activity table *)

Module Sample.

Definition actor : GenericForeignKey :=
  {| name := "actor";
     ct_field := "actor_content_type";
     fk_field := "actor_object_id" |}.

Definition Action : Model :=
  {| virtual_fields := [OtherVirtual "tagged"; Generic actor];
     get_field_column := λ f, f +:+ "_id";
     relations := {["tags"]} |}.

(** A row of the primary query: key, type tag and target id of [actor]. *)
Definition action (key ct fk : pyval) : pyval * gmap string pyval :=
  (key, {["actor_content_type_id" := ct; "actor_object_id" := fk]}).

Definition table (stored : list Obj) : ModelClass :=
  {| all_with_deleted := None;
     objects := λ ids, filter (λ o, smart_unicode (obj_pk o) ∈ ids) stored |}.

(** Type 1 and type 2 have text keys, type 3 has integer keys. *)
Definition content_types : gmap pyval ContentType :=
  {[ PInt 1 := {| model_class :=
                    table [ {| obj_addr := 100; obj_pk := PStr "10" |};
                            {| obj_addr := 101; obj_pk := PStr "11" |} ] |};
     PInt 2 := {| model_class :=
                    table [ {| obj_addr := 200; obj_pk := PStr "20" |} ] |};
     PInt 3 := {| model_class :=
                    table [ {| obj_addr := 300; obj_pk := PInt 10 |} ] |} ]}.

Definition env : Env :=
  {| FETCH_RELATIONS := true;
     USE_PREFETCH := false;
     has_prefetch_related := false;
     in_bulk := λ ids, filter (λ kv, kv.1 ∈ ids) content_types;
     default_target_field_name := λ s, s +:+ "_all";
     related_links := λ _ _ _, ∅ |}.

Definition env_disabled : Env :=
  {| FETCH_RELATIONS := false;
     USE_PREFETCH := false;
     has_prefetch_related := false;
     in_bulk := in_bulk env;
     default_target_field_name := default_target_field_name env;
     related_links := related_links env |}.

(** Rows 1 and 2 reference (type 1, id 10), row 3 references
    (type 2, id 20). *)
Definition three_rows : list Row :=
  fresh_row <$> [ action (PInt 1) (PInt 1) (PStr "10");
                  action (PInt 2) (PInt 1) (PStr "10");
                  action (PInt 3) (PInt 2) (PStr "20") ].

(** The result map of the three-row scenario. *)
Definition three_rows_data_map : gmap (pyval * pyval) Obj :=
  {[ (PInt 1, PStr "10") := {| obj_addr := 100; obj_pk := PStr "10" |};
     (PInt 2, PStr "20") := {| obj_addr := 200; obj_pk := PStr "20" |} ]}.

(** A row with a type tag and a null target id. *)
Definition null_id_row : Row :=
  fresh_row (action (PInt 7) (PInt 1) PNone).

(** A row with no reference: type tag and target id are both null. *)
Definition absent_row : Row :=
  fresh_row (action (PInt 6) PNone PNone).

(** A row whose target does not exist. *)
Definition dangling_row : Row :=
  fresh_row (action (PInt 8) (PInt 1) (PStr "99")).

(** The query set of all actions, and a store that holds only it. *)
Definition actions : QuerySet :=
  {| klass := GFKQuerySet_class;
     model := Action;
     query := [ action (PInt 1) (PInt 1) (PStr "10");
                action (PInt 2) (PInt 1) (PStr "10");
                action (PInt 3) (PInt 2) (PStr "20") ];
     _batches := None;
     _result_cache := None;
     _prefetch_related_lookups := [] |}.

Definition world : World := {| heap := [actions]; log := [] |}.

(** The store after [actions.none()]. *)
Definition world_none : World :=
  {| heap := [actions; cloned actions (Some EmptyGFKQuerySet_class)];
     log := [] |}.

(** The environment with delegation to the host's prefetch enabled. *)
Definition env_prefetch : Env :=
  {| FETCH_RELATIONS := true;
     USE_PREFETCH := true;
     has_prefetch_related := true;
     in_bulk := in_bulk env;
     default_target_field_name := default_target_field_name env;
     related_links := related_links env |}.

(** A row whose type tag has no content type. *)
Definition unknown_type_row : Row :=
  fresh_row (action (PInt 11) (PInt 5) (PStr "1")).

(** A row that references the table with integer keys. *)
Definition integer_key_row : Row :=
  fresh_row (action (PInt 9) (PInt 3) (PStr "10")).

(** A row with a target id and a null type tag. *)
Definition half_null_row : Row :=
  fresh_row (action (PInt 10) PNone (PStr "10")).

End Sample.

(** The kinds of event, for counting the calls of a log. *)
Definition is_primary_query (e : event) : bool :=
  match e with
  | PrimaryQuery => true
  | _ => false
  end.

Definition is_batch_fetch (e : event) : bool :=
  match e with
  | BatchFetch _ _ => true
  | _ => false
  end.

Definition is_content_type_lookup (e : event) : bool :=
  match e with
  | ContentTypeLookup _ => true
  | _ => false
  end.

(** A content type whose [objects] manager answers as [f] does. *)
Definition with_objects (f : list pyval → list Obj) (c : ContentType)
  : ContentType :=
  {| model_class :=
       {| all_with_deleted := all_with_deleted (model_class c);
          objects := f |} |}.

(** Target classes whose default manager has [all_with_deleted]: the
    objects manager hides the deleted objects, [all_with_deleted] returns
    them too. *)
Module SoftDelete.

Definition table (stored deleted : list Obj) : ModelClass :=
  {| all_with_deleted :=
       Some (λ ids, filter (λ o, smart_unicode (obj_pk o) ∈ ids)
                      (stored ++ deleted));
     objects := λ ids, filter (λ o, smart_unicode (obj_pk o) ∈ ids) stored |}.

(** The target of type 1 is deleted, the target of type 2 is not. *)
Definition content_types : gmap pyval ContentType :=
  {[ PInt 1 := {| model_class :=
                    table [ {| obj_addr := 101; obj_pk := PStr "11" |} ]
                          [ {| obj_addr := 100; obj_pk := PStr "10" |} ] |};
     PInt 2 := {| model_class :=
                    table [ {| obj_addr := 200; obj_pk := PStr "20" |} ]
                          [] |} ]}.

Definition env : Env :=
  {| FETCH_RELATIONS := true;
     USE_PREFETCH := false;
     has_prefetch_related := false;
     in_bulk := λ ids, filter (λ kv, kv.1 ∈ ids) content_types;
     default_target_field_name := default_target_field_name Sample.env;
     related_links := related_links Sample.env |}.

(** The same content types with [objects] managers that return nothing. *)
Definition env_no_objects : Env :=
  {| FETCH_RELATIONS := true;
     USE_PREFETCH := false;
     has_prefetch_related := false;
     in_bulk := λ ids, with_objects (λ _, []) <$> in_bulk env ids;
     default_target_field_name := default_target_field_name Sample.env;
     related_links := related_links Sample.env |}.

End SoftDelete.

(** A decidable closed proposition, settled by evaluating its decision
    procedure. *)
Ltac by_computation := apply (bool_decide_unpack _); vm_compute; exact I.

(** * Properties *)

(** ** Dicts *)

Lemma keys_NoDup {V} (d : gmap pyval V) : NoDup (keys d).
Proof. apply NoDup_fst_map_to_list. Qed.

Lemma elem_of_keys {V} (d : gmap pyval V) (k : pyval) :
  k ∈ keys d ↔ is_Some (d !! k).
Proof.
  unfold keys. rewrite list_elem_of_fmap. split.
  - intros [[k' v] [-> Hin]]. apply elem_of_map_to_list in Hin. eauto.
  - intros [v Hv]. exists (k, v). split; [done|]. by apply elem_of_map_to_list.
Qed.

Lemma keys_dom {V} (d : gmap pyval V) : list_to_set (keys d) = dom d.
Proof.
  apply set_eq. intros k.
  by rewrite elem_of_list_to_set, elem_of_keys, elem_of_dom.
Qed.

(** ** The first pass *)

Lemma has_empty ct key : ¬ has ∅ ct key.
Proof. intros (items_ & H & _). by rewrite lookup_empty in H. Qed.

Lemma has_record_reference m item ct_map gfk ct key :
  has (record_reference m item ct_map gfk) ct key ↔
  has ct_map ct key ∨
  (ct = type_tag m item gfk ∧ key = smart_unicode (target_id item gfk)).
Proof.
  unfold record_reference, has, type_tag, target_id.
  set (c := getattr item (get_field_column m (ct_field gfk))).
  set (k := smart_unicode (getattr item (fk_field gfk))).
  destruct (decide (ct = c)) as [->|Hne].
  - rewrite lookup_insert_eq. split.
    + intros (items_ & [= <-] & His).
      destruct (decide (key = k)) as [->|Hk]; [by right|left].
      rewrite lookup_insert_ne in His by done.
      destruct (ct_map !! c) as [old|] eqn:Hold; simpl in His.
      * eauto.
      * rewrite lookup_empty in His. by destruct His.
    + intros [(items_ & Hl & His)|[_ ->]].
      * eexists. split; [done|]. rewrite Hl. simpl.
        destruct (decide (key = k)) as [->|Hk].
        -- rewrite lookup_insert_eq. eauto.
        -- by rewrite lookup_insert_ne.
      * eexists. split; [done|]. rewrite lookup_insert_eq. eauto.
  - rewrite lookup_insert_ne by done. naive_solver.
Qed.

Lemma dom_record_reference m item ct_map gfk :
  dom (record_reference m item ct_map gfk) = {[type_tag m item gfk]} ∪ dom ct_map.
Proof. unfold record_reference. by rewrite dom_insert_L. Qed.

Lemma has_foldl_record_reference m item gfks ct_map ct key :
  has (foldl (record_reference m item) ct_map gfks) ct key ↔
  has ct_map ct key ∨
  ∃ gfk, gfk ∈ gfks ∧ ct = type_tag m item gfk
         ∧ key = smart_unicode (target_id item gfk).
Proof.
  revert ct_map. induction gfks as [|g gfks IH]; intros ct_map; simpl.
  - split; [by left|]. intros [?|(g & Hg & _)]; [done|]. by apply elem_of_nil in Hg.
  - rewrite IH, has_record_reference. split.
    + intros [[?|[??]]|(g' & ? & ? & ?)].
      * by left.
      * right. exists g. split; [left|done].
      * right. exists g'. split; [by right|done].
    + intros [?|(g' & Hin & ? & ?)]; [by left; left|].
      apply elem_of_cons in Hin as [->|Hin].
      * left. by right.
      * right. eauto.
Qed.

Lemma dom_foldl_record_reference m item gfks ct_map :
  dom (foldl (record_reference m item) ct_map gfks)
  = list_to_set (type_tag m item <$> gfks) ∪ dom ct_map.
Proof.
  revert ct_map. induction gfks as [|g gfks IH]; intros ct_map; simpl.
  - set_solver.
  - rewrite IH, dom_record_reference. set_solver.
Qed.

Lemma has_first_pass_from m gfks rows ct_map ct key :
  has (foldl (λ acc item, foldl (record_reference m item) acc gfks)
             ct_map rows) ct key ↔
  has ct_map ct key ∨
  ∃ item gfk, item ∈ rows ∧ gfk ∈ gfks ∧ ct = type_tag m item gfk
              ∧ key = smart_unicode (target_id item gfk).
Proof.
  revert ct_map. induction rows as [|r rows IH]; intros ct_map; simpl.
  - split; [by left|]. intros [?|(i & g & Hi & _)]; [done|].
    by apply elem_of_nil in Hi.
  - rewrite IH, has_foldl_record_reference. split.
    + intros [[?|(g & ? & ? & ?)]|(i & g & ? & ? & ? & ?)].
      * by left.
      * right. exists r, g. split; [left|done].
      * right. exists i, g. split; [by right|done].
    + intros [?|(i & g & Hin & ? & ? & ?)]; [by left; left|].
      apply elem_of_cons in Hin as [->|Hin].
      * left. right. eauto.
      * right. eauto 6.
Qed.

Lemma dom_first_pass_from m gfks rows ct_map :
  dom (foldl (λ acc item, foldl (record_reference m item) acc gfks)
             ct_map rows)
  = list_to_set (item ← rows; type_tag m item <$> gfks) ∪ dom ct_map.
Proof.
  revert ct_map. induction rows as [|r rows IH]; intros ct_map; simpl.
  - set_solver.
  - rewrite IH, dom_foldl_record_reference, list_to_set_app_L. set_solver.
Qed.

(** The grouping holds exactly the references of the rows, null ids
    included, each keyed by the text of its id. *)
Lemma has_first_pass m gfks rows ct key :
  has (first_pass m gfks rows) ct key ↔
  ∃ item gfk, item ∈ rows ∧ gfk ∈ gfks ∧ ct = type_tag m item gfk
              ∧ key = smart_unicode (target_id item gfk).
Proof.
  unfold first_pass. rewrite has_first_pass_from.
  split; [|by right]. intros [H|H]; [|done]. by apply has_empty in H.
Qed.

Lemma dom_first_pass m gfks rows :
  dom (first_pass m gfks rows) = stored_type_tags m gfks rows.
Proof.
  unfold first_pass, stored_type_tags.
  rewrite dom_first_pass_from, dom_empty_L. set_solver.
Qed.

(** ** The fetch loop *)

Lemma record_objects_lookup ct_id items_ objs dm dm' c k o :
  record_objects ct_id items_ objs dm = Ok dm' →
  dm' !! (c, k) = Some o →
  dm !! (c, k) = Some o
  ∨ (c = ct_id ∧ obj_pk o = k ∧ is_Some (items_ !! k) ∧ o ∈ objs).
Proof.
  revert dm. induction objs as [|x objs IH]; intros dm; simpl.
  - intros [= ->]. by left.
  - destruct (items_ !! obj_pk x) as [v|] eqn:Hx; [|done].
    intros Hrec Hlook. destruct (IH _ Hrec Hlook) as [Hin|(-> & <- & ? & ?)].
    + destruct (decide ((ct_id, obj_pk x) = (c, k))) as [[= <- <-]|Hne].
      * rewrite lookup_insert_eq in Hin. injection Hin as ->.
        right. repeat split; eauto. left.
      * rewrite lookup_insert_ne in Hin by done. by left.
    + right. repeat split; eauto. by right.
Qed.

Lemma fetch_events_cons c its groups :
  omap fetch_event ((c, its) :: groups)
  = if truthy c then SecondaryFetch c (keys its) :: omap fetch_event groups
    else omap fetch_event groups.
Proof. simpl. unfold fetch_event at 1. simpl. by destruct (truthy c). Qed.

Lemma fetch_targets_events ctypes groups dm evs r :
  fetch_targets ctypes groups dm = (evs, r) →
  evs `prefix_of` omap fetch_event groups
  ∧ (∀ dm', r = Ok dm' → evs = omap fetch_event groups).
Proof.
  revert dm evs r. induction groups as [|[ct_id items_] groups IH];
    intros dm evs r.
  - simpl. intros [= <- <-]. split; [done|]. done.
  - rewrite fetch_events_cons. simpl. destruct (truthy ct_id).
    + destruct (ctypes !! ct_id) as [ct|].
      * destruct (record_objects _ _ _ _) as [dm1|e].
        -- destruct (fetch_targets ctypes groups dm1) as [evs1 r1] eqn:Hrest.
           intros [= <- <-]. destruct (IH _ _ _ Hrest) as [Hpre Heq].
           split; [by apply prefix_cons|].
           intros dm' ->. f_equal. by apply (Heq dm').
        -- intros [= <- <-]. split; [|done].
           apply prefix_cons, prefix_nil.
      * intros [= <- <-]. split; [apply prefix_nil|done].
    + apply IH.
Qed.

Lemma fetch_targets_lookup ctypes groups dm evs dm' c k o :
  fetch_targets ctypes groups dm = (evs, Ok dm') →
  dm' !! (c, k) = Some o →
  dm !! (c, k) = Some o
  ∨ (truthy c = true ∧ obj_pk o = k
     ∧ ∃ items_ ct, (c, items_) ∈ groups ∧ is_Some (items_ !! k)
                    ∧ ctypes !! c = Some ct
                    ∧ o ∈ target_objects (model_class ct) (keys items_)).
Proof.
  revert dm evs. induction groups as [|[ct_id items_] groups IH];
    intros dm evs; simpl.
  - intros [= <- <-]. by left.
  - destruct (truthy ct_id) eqn:Htr.
    + destruct (ctypes !! ct_id) as [ct|] eqn:Hct; [|done].
      destruct (record_objects _ _ _ _) as [dm1|e] eqn:Hrec.
      * destruct (fetch_targets ctypes groups dm1) as [evs1 r1] eqn:Hrest.
        intros [= <- ->] Hlook.
        destruct (IH _ _ Hrest Hlook)
          as [Hin|(? & ? & its & ct' & ? & ? & ? & ?)].
        -- destruct (record_objects_lookup _ _ _ _ _ _ _ _ Hrec Hin)
             as [?|(-> & ? & ? & ?)]; [by left|].
           right. split; [done|]. split; [done|]. exists items_, ct.
           split; [left|done].
        -- right. split; [done|]. split; [done|]. exists its, ct'.
           split; [by right|done].
      * by intros [= <- ?].
    + intros Hrest Hlook.
      destruct (IH _ _ Hrest Hlook)
        as [?|(? & ? & its & ct' & ? & ? & ? & ?)]; [by left|].
      right. split; [done|]. split; [done|]. exists its, ct'.
      split; [by right|done].
Qed.

Lemma record_objects_keys ct_id items_ objs dm dm' o :
  record_objects ct_id items_ objs dm = Ok dm' →
  o ∈ objs → is_Some (items_ !! obj_pk o).
Proof.
  revert dm. induction objs as [|x objs IH]; intros dm; simpl.
  - intros _ Hin. by apply elem_of_nil in Hin.
  - destruct (items_ !! obj_pk x) as [v|] eqn:Hx; [|done].
    intros Hrec Hin. apply elem_of_cons in Hin as [->|Hin]; [by eauto|].
    by eapply IH.
Qed.

(** A loop that completes has found the content type of every truthy
    group, and has fetched only objects keyed by a requested id. *)
Lemma fetch_targets_groups ctypes groups dm evs dm' c items_ :
  fetch_targets ctypes groups dm = (evs, Ok dm') →
  (c, items_) ∈ groups → truthy c = true →
  ∃ ct, ctypes !! c = Some ct
        ∧ ∀ o, o ∈ target_objects (model_class ct) (keys items_) →
               is_Some (items_ !! obj_pk o).
Proof.
  revert dm evs. induction groups as [|[ct_id its] groups IH];
    intros dm evs; simpl.
  - intros _ Hin. by apply elem_of_nil in Hin.
  - intros Hrun Hin Htr. destruct (truthy ct_id) eqn:Htr'.
    + destruct (ctypes !! ct_id) as [ct|] eqn:Hct; [|done].
      destruct (record_objects _ _ _ _) as [dm1|e] eqn:Hrec;
        [|by injection Hrun].
      destruct (fetch_targets ctypes groups dm1) as [evs1 r1] eqn:Hrest.
      injection Hrun as <- ->.
      apply elem_of_cons in Hin as [[= -> ->]|Hin]; [|by eapply IH].
      exists ct. split; [done|]. intros o Ho.
      by eapply record_objects_keys.
    + apply elem_of_cons in Hin as [[= -> ->]|Hin]; [congruence|].
      by eapply IH.
Qed.

(** Among the fetches of groups with distinct type tags, the one for a
    truthy tag is alone and asks for the keys of its group. *)
Lemma fetch_events_for groups ct_id items_ :
  NoDup groups.*1 → (ct_id, items_) ∈ groups → truthy ct_id = true →
  filter (λ e, is_fetch_for ct_id e) (omap fetch_event groups)
  = [SecondaryFetch ct_id (keys items_)].
Proof.
  assert (Hnone : ∀ gs : list (pyval * gmap pyval (string * pyval)),
             ct_id ∉ gs.*1 →
             filter (λ e, is_fetch_for ct_id e) (omap fetch_event gs) = []).
  { induction gs as [|[c its] gs IH]; [done|].
    rewrite fetch_events_cons. rewrite fmap_cons. simpl.
    intros Hnot. apply not_elem_of_cons in Hnot as [Hne Hnot].
    destruct (truthy c); [|by apply IH].
    rewrite filter_cons_False; [by apply IH|].
    simpl. rewrite bool_decide_eq_false_2; [tauto|done]. }
  induction groups as [|[c its] groups IH].
  - intros _ Hin. by apply elem_of_nil in Hin.
  - rewrite fetch_events_cons, fmap_cons. simpl.
    intros Hnd Hin Htr. apply NoDup_cons in Hnd as [Hnot Hnd].
    apply elem_of_cons in Hin as [[= <- <-]|Hin].
    + rewrite Htr. rewrite filter_cons_True.
      * by rewrite Hnone.
      * simpl. by rewrite bool_decide_eq_true_2.
    + assert (c ≠ ct_id) as Hne.
      { intros ->. apply Hnot. apply list_elem_of_fmap. by exists (ct_id, items_). }
      destruct (truthy c); [|by apply IH].
      rewrite filter_cons_False; [by apply IH|].
      simpl. rewrite bool_decide_eq_false_2; [tauto|done].
Qed.

Lemma secondary_fetches_fetch_events groups :
  secondary_fetches (omap fetch_event groups) = omap fetch_event groups.
Proof.
  unfold secondary_fetches. induction groups as [|[c its] groups IH]; [done|].
  rewrite fetch_events_cons. destruct (truthy c); [|done].
  rewrite filter_cons_True by done. by rewrite IH.
Qed.

Lemma length_fetch_events groups :
  NoDup groups.*1 →
  length (omap fetch_event groups)
  = size (filter (λ c, truthy c = true) (list_to_set (C := gset pyval) groups.*1)).
Proof.
  induction groups as [|[c its] groups IH].
  - intros _. simpl. rewrite filter_empty_L by apply _. by rewrite size_empty.
  - rewrite fetch_events_cons, fmap_cons. simpl.
    intros Hnd. apply NoDup_cons in Hnd as [Hnot Hnd].
    rewrite filter_union_L by apply _.
    destruct (truthy c) eqn:Htr; simpl.
    + rewrite filter_singleton_True_L by (done || apply _).
      rewrite size_union. 
      * rewrite size_singleton, IH by done. done.
      * apply disjoint_singleton_l. intros Hin. apply Hnot.
        apply elem_of_filter in Hin as [_ Hin]. by apply elem_of_list_to_set in Hin.
    + rewrite filter_singleton_False_L; [|apply _|by rewrite Htr].
      rewrite union_empty_l_L. by apply IH.
Qed.

(** ** The second pass *)

Lemma resolve_reference_stored m dm item gfk item' err :
  resolve_reference m dm item gfk = (item', err) →
  pk item' = pk item ∧ columns item' = columns item
  ∧ attached item' = attached item.
Proof.
  unfold resolve_reference. case_decide; [by intros [= <- <-]|].
  destruct (dm !! _); by intros [= <- <-].
Qed.

Lemma resolve_reference_error m dm item gfk item' e :
  resolve_reference m dm item gfk = (item', Some e) → e = KeyError.
Proof.
  unfold resolve_reference. case_decide; [done|].
  destruct (dm !! _); [done|]. by intros [= _ <-].
Qed.

Lemma type_tag_stored m item item' gfk :
  columns item' = columns item → type_tag m item' gfk = type_tag m item gfk.
Proof. unfold type_tag, getattr. by intros ->. Qed.

Lemma target_id_stored item item' gfk :
  columns item' = columns item → target_id item' gfk = target_id item gfk.
Proof. unfold target_id, getattr. by intros ->. Qed.

Lemma reference_key_stored m item item' gfk :
  columns item' = columns item →
  reference_key m item' gfk = reference_key m item gfk.
Proof.
  intros H. unfold reference_key.
  by rewrite (type_tag_stored _ _ _ _ H), (target_id_stored _ _ _ H).
Qed.

Lemma resolve_item_stored m dm gfks item item' err :
  resolve_item m dm gfks item = (item', err) →
  pk item' = pk item ∧ columns item' = columns item
  ∧ attached item' = attached item.
Proof.
  revert item. induction gfks as [|g gfks IH]; intros item; simpl.
  - by intros [= <- <-].
  - destruct (resolve_reference m dm item g) as [item1 [e|]] eqn:Hg.
    + intros [= <- <-]. by eapply resolve_reference_stored.
    + intros Hrest. apply IH in Hrest as (-> & -> & ->).
      by eapply resolve_reference_stored.
Qed.

Lemma resolve_item_error m dm gfks item item' e :
  resolve_item m dm gfks item = (item', Some e) → e = KeyError.
Proof.
  revert item. induction gfks as [|g gfks IH]; intros item; simpl; [done|].
  destruct (resolve_reference m dm item g) as [item1 [e1|]] eqn:Hg.
  - intros [= <- <-]. by eapply resolve_reference_error.
  - apply IH.
Qed.

(** A slot is left as it was when every field of that name has a null
    target id, whatever the result map holds. *)
Lemma resolve_item_slot_kept m dm gfks item item' err n :
  resolve_item m dm gfks item = (item', err) →
  (∀ g, g ∈ gfks → name g = n → target_id item g = PNone) →
  resolved item' !! n = resolved item !! n.
Proof.
  revert item. induction gfks as [|g gfks IH]; intros item; simpl.
  - by intros [= <- <-].
  - intros Hrun Hnull.
    destruct (resolve_reference m dm item g) as [item1 [e|]] eqn:Hg.
    + injection Hrun as <- <-. revert Hg. unfold resolve_reference.
      case_decide; [by intros [= <-]|]. destruct (dm !! _); [done|].
      by intros [= <- _].
    + assert (columns item1 = columns item) as Hcols
        by (by eapply resolve_reference_stored).
      rewrite (IH item1 Hrun).
      * revert Hg. unfold resolve_reference.
        case_decide as Hfk; [by intros [= <-]|].
        destruct (dm !! _); [|done]. intros [= <-]. simpl.
        apply lookup_insert_ne. intros Heq.
        apply Hfk. apply (Hnull g); [left|done].
      * intros g' Hin Hname. rewrite (target_id_stored _ _ _ Hcols).
        apply Hnull; [by right|done].
Qed.

(** After a complete run over the fields of a row, the slot of a field
    with a non-null target id holds the entry of the result map. *)
Lemma resolve_item_slot_set m dm gfks item item' gfk :
  NoDup (name <$> gfks) →
  resolve_item m dm gfks item = (item', None) →
  gfk ∈ gfks → target_id item gfk ≠ PNone →
  ∃ o, dm !! reference_key m item gfk = Some o
       ∧ resolved item' !! name gfk = Some o.
Proof.
  revert item. induction gfks as [|g gfks IH]; intros item; simpl.
  - intros _ _ Hin. by apply elem_of_nil in Hin.
  - intros Hnd Hrun Hin Hfk. apply NoDup_cons in Hnd as [Hnot Hnd].
    destruct (resolve_reference m dm item g) as [item1 [e|]] eqn:Hg; [done|].
    assert (columns item1 = columns item) as Hcols
      by (by eapply resolve_reference_stored).
    apply elem_of_cons in Hin as [->|Hin].
    + revert Hg. unfold resolve_reference. case_decide; [done|].
      fold (type_tag m item g) (target_id item g).
      fold (reference_key m item g).
      destruct (dm !! reference_key m item g) as [o|]; [|done].
      intros [= <-]. exists o. split; [done|].
      rewrite (resolve_item_slot_kept _ _ _ _ _ _ (name g) Hrun).
      * simpl. apply lookup_insert_eq.
      * intros g' Hg' Hname. exfalso. apply Hnot.
        rewrite <- Hname. apply list_elem_of_fmap. by exists g'.
    + rewrite <- (reference_key_stored m _ _ gfk Hcols).
      apply (IH item1); [done..|]. by rewrite (target_id_stored _ _ _ Hcols).
Qed.

(** A reference with a non-null target id and no entry in the result map
    stops the loop over the fields with a [KeyError]. *)
Lemma resolve_item_dangling m dm gfks item item' err gfk :
  resolve_item m dm gfks item = (item', err) →
  gfk ∈ gfks → target_id item gfk ≠ PNone →
  dm !! reference_key m item gfk = None →
  err = Some KeyError.
Proof.
  revert item. induction gfks as [|g gfks IH]; intros item; simpl.
  - intros _ Hin. by apply elem_of_nil in Hin.
  - intros Hrun Hin Hfk Hnone.
    destruct (resolve_reference m dm item g) as [item1 [e|]] eqn:Hg.
    + injection Hrun as <- <-. f_equal. by eapply resolve_reference_error.
    + assert (columns item1 = columns item) as Hcols
        by (by eapply resolve_reference_stored).
      apply elem_of_cons in Hin as [->|Hin].
      * revert Hg. unfold resolve_reference. case_decide; [done|].
        fold (type_tag m item g) (target_id item g).
        fold (reference_key m item g). by rewrite Hnone.
      * apply (IH item1); [done..| |].
        -- by rewrite (target_id_stored _ _ _ Hcols).
        -- by rewrite (reference_key_stored m _ _ gfk Hcols).
Qed.

Lemma second_pass_error m dm gfks rows rows' e :
  second_pass m dm gfks rows = (rows', Some e) → e = KeyError.
Proof.
  revert rows'. induction rows as [|r rows IH]; intros rows'; simpl; [done|].
  destruct (resolve_item m dm gfks r) as [r1 [e1|]] eqn:Hr.
  - intros [= <- <-]. by eapply resolve_item_error.
  - destruct (second_pass m dm gfks rows) as [rest err]. intros [= <- ->].
    by eapply IH.
Qed.

(** Every row of the row set is still there after the pass: either
    untouched, or as the loop over its fields left it. *)
Lemma second_pass_lookup m dm gfks rows rows' err i item :
  second_pass m dm gfks rows = (rows', err) →
  rows !! i = Some item →
  ∃ item', rows' !! i = Some item'
    ∧ (item' = item ∨ ∃ e, resolve_item m dm gfks item = (item', e))
    ∧ (err = None → resolve_item m dm gfks item = (item', None)).
Proof.
  revert rows' i. induction rows as [|r rows IH]; intros rows' i; simpl; [done|].
  destruct (resolve_item m dm gfks r) as [r1 [e1|]] eqn:Hr.
  - intros [= <- <-]. destruct i as [|i]; simpl.
    + intros [= ->]. exists r1. split; [done|]. split; [|done]. right. eauto.
    + intros Hi. exists item. split; [done|]. split; [by left|done].
  - destruct (second_pass m dm gfks rows) as [rest err'] eqn:Hrest.
    intros [= <- <-]. destruct i as [|i]; simpl.
    + intros [= ->]. exists r1. split; [done|]. split; [|done]. right. eauto.
    + intros Hi. by apply (IH rest i).
Qed.

Lemma second_pass_dangling m dm gfks rows rows' err item gfk :
  second_pass m dm gfks rows = (rows', err) →
  item ∈ rows → gfk ∈ gfks → target_id item gfk ≠ PNone →
  dm !! reference_key m item gfk = None →
  err = Some KeyError.
Proof.
  revert rows'. induction rows as [|r rows IH]; intros rows'; simpl.
  - intros _ Hin. by apply elem_of_nil in Hin.
  - intros Hrun Hin Hg Hfk Hnone.
    destruct (resolve_item m dm gfks r) as [r1 [e1|]] eqn:Hr.
    + injection Hrun as <- <-. f_equal. by eapply resolve_item_error.
    + destruct (second_pass m dm gfks rows) as [rest err'] eqn:Hrest.
      injection Hrun as <- <-.
      apply elem_of_cons in Hin as [->|Hin].
      * by pose proof (resolve_item_dangling _ _ _ _ _ _ _ Hr Hg Hfk Hnone).
      * by eapply IH.
Qed.

(** ** The resolver on a row set *)

Lemma build_data_map_inv env m gfks rows evs r :
  build_data_map env m gfks rows = (evs, r) →
  ∃ fevs,
    evs = ContentTypeLookup (keys (first_pass m gfks rows)) :: fevs
    ∧ fetch_targets (in_bulk env (keys (first_pass m gfks rows)))
        (map_to_list (first_pass m gfks rows)) ∅ = (fevs, r).
Proof.
  unfold build_data_map.
  destruct (fetch_targets _ _ _) as [fevs r']. intros [= <- <-]. eauto.
Qed.

Lemma resolve_rows_events env m gfks rows :
  (resolve_rows env m gfks rows).1 = (build_data_map env m gfks rows).1.
Proof.
  unfold resolve_rows. by destruct (build_data_map env m gfks rows) as [evs [dm|e]].
Qed.

Lemma resolve_rows_complete env m gfks rows evs rows' :
  resolve_rows env m gfks rows = (evs, (rows', None)) →
  ∃ dm, build_data_map env m gfks rows = (evs, Ok dm)
        ∧ second_pass m dm gfks rows = (rows', None).
Proof.
  unfold resolve_rows.
  destruct (build_data_map env m gfks rows) as [evs0 [dm|e]]; [|done].
  intros [= <- Hsp]. eauto.
Qed.

Lemma resolve_rows_second_pass env m gfks rows evs dm :
  build_data_map env m gfks rows = (evs, Ok dm) →
  resolve_rows env m gfks rows = (evs, second_pass m dm gfks rows).
Proof. unfold resolve_rows. by intros ->. Qed.



(** When the fetch loop completes, the number of secondary fetches equals
    the number of distinct truthy type tags stored in the selected fields
    of the rows; each such tag has exactly one fetch, and that fetch asks,
    without duplicates, for the text of the ids stored beside the tag. *)
Lemma fetches_of_stored_type_tags env m gfks rows evs dm :
  build_data_map env m gfks rows = (evs, Ok dm) →
  length (secondary_fetches (resolve_rows env m gfks rows).1)
  = size (filter (λ c, truthy c = true) (stored_type_tags m gfks rows))
  ∧ ∀ ct, truthy ct = true → ct ∈ stored_type_tags m gfks rows →
      ∃ ids,
        filter (λ e, is_fetch_for ct e) (resolve_rows env m gfks rows).1
        = [SecondaryFetch ct ids]
        ∧ NoDup ids
        ∧ ∀ k, k ∈ ids ↔
            ∃ item gfk, item ∈ rows ∧ gfk ∈ gfks ∧ ct = type_tag m item gfk
                        ∧ k = smart_unicode (target_id item gfk).
Proof.
  intros Hb. rewrite resolve_rows_events, Hb. simpl.
  apply build_data_map_inv in Hb as (fevs & -> & Hf).
  apply fetch_targets_events in Hf as [_ Heq]. rewrite (Heq dm eq_refl).
  split.
  - unfold secondary_fetches. rewrite filter_cons_False by (simpl; tauto).
    fold (secondary_fetches (omap fetch_event (map_to_list (first_pass m gfks rows)))).
    rewrite secondary_fetches_fetch_events.
    rewrite length_fetch_events by apply NoDup_fst_map_to_list.
    fold (keys (first_pass m gfks rows)).
    by rewrite keys_dom, dom_first_pass.
  - intros ct Htr Hin. rewrite <- dom_first_pass in Hin.
    apply elem_of_dom in Hin as [items_ Hitems].
    exists (keys items_). split; [|split].
    + rewrite filter_cons_False by (simpl; tauto).
      apply fetch_events_for; [apply NoDup_fst_map_to_list| |done].
      by apply elem_of_map_to_list.
    + apply keys_NoDup.
    + intros k. rewrite elem_of_keys, <- has_first_pass. unfold has.
      rewrite Hitems. naive_solver.
Qed.

Lemma elem_of_stored_type_tags m gfks rows ct :
  ct ∈ stored_type_tags m gfks rows ↔
  ∃ item gfk, item ∈ rows ∧ gfk ∈ gfks ∧ ct = type_tag m item gfk.
Proof.
  unfold stored_type_tags. rewrite elem_of_list_to_set, list_elem_of_bind.
  split.
  - intros (item & Hin & Hitem). apply list_elem_of_fmap in Hin as (g & -> & Hg).
    eauto.
  - intros (item & g & Hitem & Hg & ->). exists item. split; [|done].
    by apply list_elem_of_fmap_2.
Qed.

Lemma elem_of_referenced_type_tags m gfks rows ct :
  ct ∈ referenced_type_tags m gfks rows ↔
  ∃ item gfk, item ∈ rows ∧ gfk ∈ gfks ∧ target_id item gfk ≠ PNone
              ∧ ct = type_tag m item gfk.
Proof.
  unfold referenced_type_tags. rewrite elem_of_list_to_set, list_elem_of_bind.
  split.
  - intros (item & Hin & Hitem).
    apply list_elem_of_bind in Hin as (g & Hin & Hg).
    case_decide; [by apply elem_of_nil in Hin|].
    apply list_elem_of_singleton in Hin as ->. eauto 6.
  - intros (item & g & Hitem & Hg & Hfk & ->). exists item. split; [|done].
    apply list_elem_of_bind. exists g. split; [|done].
    rewrite decide_False by done. by apply list_elem_of_singleton.
Qed.

(** C3, amended: on a row set in which no field pairs a truthy type tag
    with a null target id, and on which the fetch loop completes, the
    number of secondary fetches equals the number of distinct truthy
    referenced type tags; each such tag has exactly one fetch, and that
    fetch asks, without duplicates, for the text of the ids referenced
    under the tag. *)
Theorem one_fetch_per_referenced_type_tag env m gfks rows evs dm :
  (∀ item gfk, item ∈ rows → gfk ∈ gfks →
     target_id item gfk = PNone → truthy (type_tag m item gfk) = false) →
  build_data_map env m gfks rows = (evs, Ok dm) →
  length (secondary_fetches (resolve_rows env m gfks rows).1)
  = size (filter (λ c, truthy c = true) (referenced_type_tags m gfks rows))
  ∧ ∀ ct, truthy ct = true → ct ∈ referenced_type_tags m gfks rows →
      ∃ ids,
        filter (λ e, is_fetch_for ct e) (resolve_rows env m gfks rows).1
        = [SecondaryFetch ct ids]
        ∧ NoDup ids
        ∧ ∀ k, k ∈ ids ↔
            ∃ item gfk, item ∈ rows ∧ gfk ∈ gfks ∧ ct = type_tag m item gfk
                        ∧ target_id item gfk ≠ PNone
                        ∧ k = smart_unicode (target_id item gfk).
Proof.
  intros Hpaired Hb.
  destruct (fetches_of_stored_type_tags _ _ _ _ _ _ Hb) as [Hlen Hids].
  assert (∀ ct, truthy ct = true →
            ct ∈ stored_type_tags m gfks rows ↔
            ct ∈ referenced_type_tags m gfks rows) as Hsame.
  { intros ct Htr.
    rewrite elem_of_stored_type_tags, elem_of_referenced_type_tags. split.
    - intros (item & g & Hitem & Hg & ->). exists item, g.
      split; [done|]. split; [done|]. split; [|done]. intros Hnull.
      rewrite (Hpaired _ _ Hitem Hg Hnull) in Htr. done.
    - intros (item & g & Hitem & Hg & _ & ->). eauto. }
  split.
  - rewrite Hlen. f_equal. apply set_eq. intros ct.
    rewrite !elem_of_filter. split; intros [Htr Hin]; (split; [done|]);
      by apply Hsame.
  - intros ct Htr Hin. apply Hsame in Hin; [|done].
    destruct (Hids ct Htr Hin) as (ids & Hfetch & Hnd & Hk).
    exists ids. split; [done|]. split; [done|]. intros k. rewrite Hk. split.
    + intros (item & g & Hitem & Hg & -> & ->). exists item, g.
      split; [done|]. split; [done|]. split; [done|]. split; [|done].
      intros Hnull. rewrite (Hpaired _ _ Hitem Hg Hnull) in Htr. done.
    + intros (item & g & Hitem & Hg & -> & _ & ->). eauto 6.
Qed.

(** C7: when the fetch loop completes and some row holds a non-null target
    id whose (type tag, id) pair has no entry in the result map, the second
    pass raises a [KeyError]. *)
Theorem dangling_reference_raises_KeyError env m gfks rows evs dm item gfk :
  build_data_map env m gfks rows = (evs, Ok dm) →
  item ∈ rows → gfk ∈ gfks →
  target_id item gfk ≠ PNone →
  dm !! reference_key m item gfk = None →
  ∃ rows', second_pass m dm gfks rows = (rows', Some KeyError)
           ∧ resolve_rows env m gfks rows = (evs, (rows', Some KeyError)).
Proof.
  intros Hb Hin Hg Hfk Hnone.
  rewrite (resolve_rows_second_pass _ _ _ _ _ _ Hb).
  destruct (second_pass m dm gfks rows) as [rows' err] eqn:Hsp.
  rewrite (second_pass_dangling _ _ _ _ _ _ _ _ Hsp Hin Hg Hfk Hnone).
  by exists rows'.
Qed.

(** ** Running the methods on the store *)

Lemma deref_run a w qs :
  heap w !! a = Some qs → deref a w = (Ok qs, w).
Proof. unfold deref. by intros ->. Qed.

Lemma bind_run {A B} (c : M A) (f : A → M B) w a w' :
  c w = (Ok a, w') → (c ≫= f) w = f a w'.
Proof. unfold mbind, M_bind. by intros ->. Qed.

Lemma bind_raise {A B} (c : M A) (f : A → M B) w e w' :
  c w = (Raise e, w') → (c ≫= f) w = (Raise e, w').
Proof. unfold mbind, M_bind. by intros ->. Qed.

Lemma clone_run self klass' w qs :
  heap w !! self = Some qs →
  GFKQuerySet._clone self klass' w
  = (Ok (length (heap w)),
     {| heap := heap w ++ [cloned qs klass']; log := log w |}).
Proof.
  intros Hself. unfold GFKQuerySet._clone.
  rewrite (bind_run _ _ _ _ _ (deref_run _ _ _ Hself)).
  unfold alloc, cloned. destruct (_batches qs) as [b|]; [|done].
  by case_decide.
Qed.

Lemma iterator_run env self w qs :
  heap w !! self = Some qs →
  GFKQuerySet.iterator env self w
  = (Ok (iterated env qs).2,
     {| heap := heap w; log := log w ++ (iterated env qs).1 |}).
Proof.
  intros Hself. unfold GFKQuerySet.iterator.
  rewrite (bind_run _ _ _ _ _ (deref_run _ _ _ Hself)).
  unfold iterated. destruct (super_iterator qs) as [evs rows]. simpl.
  unfold mbind, M_bind, emit, mret, M_ret. simpl.
  destruct (_batches qs) as [b|]; [|done].
  case_decide; [done|]. simpl. unfold batch_fetches. by rewrite app_assoc.
Qed.

Lemma alter_last {A} (f : A → A) (h : list A) (x : A) :
  alter f (length h) (h ++ [x]) = h ++ [f x].
Proof. rewrite <- (Nat.add_0_r (length h)). by rewrite alter_app_r. Qed.

Lemma update_last f h x lg :
  update (length h) f {| heap := h ++ [x]; log := lg |}
  = (Ok (), {| heap := h ++ [f x]; log := lg |}).
Proof. unfold update. simpl. by rewrite alter_last. Qed.

(** Evaluating a query set that has no cached rows yet. *)
Lemma iter_last_run env h qs lg :
  _result_cache qs = None →
  GFKQuerySet.iter env (length h) {| heap := h ++ [qs]; log := lg |}
  = (Ok (iterated env qs).2,
     {| heap := h ++ [set_result_cache (Some (iterated env qs).2) qs];
        log := lg ++ (iterated env qs).1 |}).
Proof.
  intros Hcache. unfold GFKQuerySet.iter.
  assert (heap {| heap := h ++ [qs]; log := lg |} !! length h = Some qs) as Hl
    by (by apply list_lookup_middle).
  rewrite (bind_run _ _ _ _ _ (deref_run _ _ _ Hl)). rewrite Hcache.
  rewrite (bind_run _ _ _ _ _ (iterator_run _ _ _ _ Hl)). simpl.
  unfold mbind, M_bind. rewrite update_last. done.
Qed.

Lemma cloned_result_cache qs klass' : _result_cache (cloned qs klass') = None.
Proof. unfold cloned. destruct (_batches qs); [case_decide|]; done. Qed.

Lemma cloned_model qs klass' : model (cloned qs klass') = model qs.
Proof. unfold cloned. destruct (_batches qs); [case_decide|]; done. Qed.

Lemma cloned_query qs klass' : query (cloned qs klass') = query qs.
Proof. unfold cloned. destruct (_batches qs); [case_decide|]; done. Qed.

Lemma cloned_klass qs : klass (cloned qs None) = klass qs.
Proof. unfold cloned. destruct (_batches qs); [case_decide|]; done. Qed.

(** Cloning carries the attached specifications forward. *)
Lemma cloned_attached_batches qs klass' :
  attached_batches (cloned qs klass') = attached_batches qs.
Proof.
  unfold cloned, attached_batches.
  destruct (_batches qs) as [b|]; [|done]. case_decide; [|done]. by subst.
Qed.

(** The resolver with eager resolution enabled and no delegation to the
    host's prefetch: the clone is evaluated, its rows go through
    [resolve_rows], and the receiver stays as it was. *)
Lemma fetch_generic_relations_run env self args w this :
  heap w !! self = Some this →
  FETCH_RELATIONS env = true →
  USE_PREFETCH env && has_prefetch_related env = false →
  GFKQuerySet.fetch_generic_relations env self args w
  = let clone := cloned this None in
    let out := resolve_rows env (model this) (gfk_fields (model this) args)
                 (iterated env clone).2 in
    (match out.2.2 with Some e => Raise e | None => Ok (length (heap w)) end,
     {| heap := heap w ++ [set_result_cache (Some out.2.1) clone];
        log := log w ++ ((iterated env clone).1 ++ out.1) |}).
Proof.
  intros Hself Hfetch Hpre. unfold GFKQuerySet.fetch_generic_relations.
  rewrite (bind_run _ _ _ _ _ (deref_run _ _ _ Hself)).
  rewrite (bind_run _ _ _ _ _ (clone_run _ None _ _ Hself)).
  rewrite Hfetch, Hpre. simpl.
  rewrite (bind_run _ _ _ _ _
             (iter_last_run env _ _ _ (cloned_result_cache this None))).
  destruct (resolve_rows _ _ _ _) as [evs [rows' err]]. simpl.
  unfold mbind, M_bind, emit, update. simpl. rewrite alter_last.
  rewrite <- app_assoc. by destruct err.
Qed.

Lemma NoDup_fmap_inj_on {A B} (f : A → B) (l : list A) x y :
  NoDup (f <$> l) → x ∈ l → y ∈ l → f x = f y → x = y.
Proof.
  induction l as [|a l IH]; simpl.
  - intros _ Hx. by apply elem_of_nil in Hx.
  - intros Hnd Hx Hy Hf. apply NoDup_cons in Hnd as [Hnot Hnd].
    apply elem_of_cons in Hx as [->|Hx]; apply elem_of_cons in Hy as [->|Hy];
      [done| | |by apply IH].
    + exfalso. apply Hnot. rewrite Hf. by apply list_elem_of_fmap_2.
    + exfalso. apply Hnot. rewrite <- Hf. by apply list_elem_of_fmap_2.
Qed.

Lemma filter_nil_Forall {A} (P : A → Prop) `{∀ x, Decision (P x)} (l : list A) :
  Forall (λ x, ¬ P x) l → filter P l = [].
Proof.
  induction 1 as [|x l Hx _ IH]; [done|]. by rewrite filter_cons_False.
Qed.

Lemma fetch_events_truthy
    (groups : list (pyval * gmap pyval (string * pyval))) e :
  e ∈ omap fetch_event groups →
  ∃ c ids, e = SecondaryFetch c ids ∧ truthy c = true.
Proof.
  intros Hin. apply list_elem_of_omap in Hin as ([c its] & _ & Hev).
  unfold fetch_event in Hev. simpl in Hev.
  destruct (truthy c) eqn:Htr; [|done]. injection Hev as <-. eauto.
Qed.

(** No fetch is ever issued for a falsy type tag. *)
Lemma build_data_map_falsy env m gfks rows evs r ct :
  build_data_map env m gfks rows = (evs, r) →
  truthy ct = false →
  filter (λ e, is_fetch_for ct e) evs = [].
Proof.
  intros Hb Hfalse. apply build_data_map_inv in Hb as (fevs & -> & Hf).
  apply fetch_targets_events in Hf as [[k Hpre] _].
  rewrite filter_cons_False by (simpl; tauto).
  apply filter_nil_Forall, Forall_forall. intros e He.
  assert (e ∈ omap fetch_event (map_to_list (first_pass m gfks rows))) as Hin
    by (rewrite Hpre; apply elem_of_app; by left).
  apply fetch_events_truthy in Hin as (c & ids & -> & Htr). simpl.
  rewrite bool_decide_eq_false_2; [tauto|]. intros ->. congruence.
Qed.

(** The resolved slot of a field with a null target id is the same before
    and after the resolver, however the resolver ends. *)
Lemma resolve_rows_slot_kept env m gfks rows evs rows' err i item gfk :
  NoDup (name <$> gfks) →
  resolve_rows env m gfks rows = (evs, (rows', err)) →
  rows !! i = Some item → gfk ∈ gfks →
  target_id item gfk = PNone →
  ∃ item', rows' !! i = Some item'
           ∧ resolved item' !! name gfk = resolved item !! name gfk.
Proof.
  intros Hnd Hrun Hi Hg Hnull. revert Hrun. unfold resolve_rows.
  destruct (build_data_map env m gfks rows) as [evs0 [dm|e]].
  - intros [= _ Hsp].
    destruct (second_pass_lookup _ _ _ _ _ _ _ _ Hsp Hi)
      as (item' & Hi' & [->|[e He]] & _); [by eauto|].
    exists item'. split; [done|].
    apply (resolve_item_slot_kept _ _ _ _ _ _ _ He).
    intros g Hin Hname.
    by rewrite (NoDup_fmap_inj_on name gfks g gfk Hnd Hin Hg Hname).
  - intros [= _ <- _]. eauto.
Qed.

(** C1, amended: a field with a null target id is not skipped by the
    first pass, which records it in the grouping of its type tag under the
    text ['None']; no secondary fetch is issued for it when its type tag is
    falsy; the second pass never looks it up, whatever the result map
    holds, and leaves its resolved slot as it was. *)
Theorem null_target_id_never_looked_up env m gfks rows evs rows' err i item gfk :
  NoDup (name <$> gfks) →
  resolve_rows env m gfks rows = (evs, (rows', err)) →
  rows !! i = Some item → gfk ∈ gfks →
  target_id item gfk = PNone →
  has (first_pass m gfks rows) (type_tag m item gfk) (PStr "None")
  ∧ (truthy (type_tag m item gfk) = false →
     filter (λ e, is_fetch_for (type_tag m item gfk) e) evs = [])
  ∧ (∀ dm, resolve_reference m dm item gfk = (item, None))
  ∧ ∃ item', rows' !! i = Some item'
             ∧ resolved item' !! name gfk = resolved item !! name gfk.
Proof.
  intros Hnd Hrun Hi Hg Hnull. split; [|split; [|split]].
  - apply has_first_pass. exists item, gfk.
    rewrite Hnull. split; [by eapply list_elem_of_lookup_2|done].
  - intros Hfalse. pose proof (resolve_rows_events env m gfks rows) as Hev.
    rewrite Hrun in Hev. simpl in Hev.
    destruct (build_data_map env m gfks rows) as [evs0 r] eqn:Hb.
    simpl in Hev. subst evs0. by eapply build_data_map_falsy.
  - intros dm. unfold resolve_reference. fold (target_id item gfk).
    by rewrite decide_True.
  - by eapply resolve_rows_slot_kept.
Qed.

(** ** Completion under referential integrity *)

Lemma record_objects_complete ct_id items_ objs dm :
  (∀ o, o ∈ objs → is_Some (items_ !! obj_pk o)) →
  ∃ dm', record_objects ct_id items_ objs dm = Ok dm'
         ∧ (∀ k, is_Some (dm !! k) → is_Some (dm' !! k))
         ∧ (∀ o, o ∈ objs → is_Some (dm' !! (ct_id, obj_pk o))).
Proof.
  revert dm. induction objs as [|x objs IH]; intros dm Hall; simpl.
  - exists dm. split; [done|]. split; [done|]. intros o Ho.
    by apply elem_of_nil in Ho.
  - destruct (Hall x) as [v ->]; [left|].
    destruct (IH (<[(ct_id, obj_pk x) := x]> dm)) as (dm' & -> & Hmono & Hin).
    { intros o Ho. apply Hall. by right. }
    exists dm'. split; [done|]. split.
    + intros k Hk. apply Hmono.
      destruct (decide ((ct_id, obj_pk x) = k)) as [<-|Hne].
      * rewrite lookup_insert_eq. eauto.
      * by rewrite lookup_insert_ne.
    + intros o Ho. apply elem_of_cons in Ho as [->|Ho]; [|by apply Hin].
      apply Hmono. rewrite lookup_insert_eq. eauto.
Qed.

Lemma fetch_targets_complete ctypes groups dm :
  (∀ ct items_, (ct, items_) ∈ groups → truthy ct = true →
     ∃ c, ctypes !! ct = Some c
          ∧ ∀ o, o ∈ target_objects (model_class c) (keys items_) →
                 is_Some (items_ !! obj_pk o)) →
  ∃ evs dm', fetch_targets ctypes groups dm = (evs, Ok dm')
    ∧ (∀ k, is_Some (dm !! k) → is_Some (dm' !! k))
    ∧ (∀ ct items_ c o, (ct, items_) ∈ groups → truthy ct = true →
         ctypes !! ct = Some c →
         o ∈ target_objects (model_class c) (keys items_) →
         is_Some (dm' !! (ct, obj_pk o))).
Proof.
  revert dm. induction groups as [|[ct its] groups IH]; intros dm Hall; simpl.
  - exists [], dm. split; [done|]. split; [done|].
    intros ???? Hin. by apply elem_of_nil in Hin.
  - assert (∀ ct items_, (ct, items_) ∈ groups → truthy ct = true →
              ∃ c, ctypes !! ct = Some c
                   ∧ ∀ o, o ∈ target_objects (model_class c) (keys items_) →
                          is_Some (items_ !! obj_pk o)) as Hrest.
    { intros ct' its' Hin. apply Hall. by right. }
    destruct (truthy ct) eqn:Htr.
    + destruct (Hall ct its) as (c & Hc & Hobjs); [left|done|].
      rewrite Hc.
      destruct (record_objects_complete ct its
                  (target_objects (model_class c) (keys its)) dm Hobjs)
        as (dm1 & -> & Hmono1 & Hin1).
      destruct (IH dm1 Hrest) as (evs & dm' & -> & Hmono & Hin).
      eexists _, dm'. split; [done|]. split; [by eauto|].
      intros ct' its' c' o Hg Htr' Hc' Ho.
      apply elem_of_cons in Hg as [[= -> ->]|Hg]; [|by eapply Hin].
      apply Hmono. rewrite Hc in Hc'. injection Hc' as <-. by apply Hin1.
    + destruct (IH dm Hrest) as (evs & dm' & -> & Hmono & Hin).
      exists evs, dm'. split; [done|]. split; [done|].
      intros ct' its' c' o Hg Htr' Hc' Ho.
      apply elem_of_cons in Hg as [[= -> ->]|Hg]; [congruence|by eapply Hin].
Qed.

Lemma resolve_item_complete m dm gfks item :
  (∀ gfk, gfk ∈ gfks → target_id item gfk ≠ PNone →
     is_Some (dm !! reference_key m item gfk)) →
  ∃ item', resolve_item m dm gfks item = (item', None).
Proof.
  revert item. induction gfks as [|g gfks IH]; intros item Hall; simpl.
  - eauto.
  - destruct (resolve_reference m dm item g) as [item1 err] eqn:Hg.
    assert (columns item1 = columns item) as Hcols
      by (by eapply resolve_reference_stored).
    assert (err = None) as ->.
    { revert Hg. unfold resolve_reference. case_decide as Hfk; [by intros [= _ <-]|].
      fold (type_tag m item g) (target_id item g) (reference_key m item g).
      destruct (Hall g) as [o ->]; [left|done|]. by intros [= _ <-]. }
    apply IH. intros gfk Hin Hfk.
    rewrite (reference_key_stored m _ _ gfk Hcols).
    apply Hall; [by right|]. by rewrite <- (target_id_stored _ _ gfk Hcols).
Qed.

Lemma second_pass_complete m dm gfks rows :
  (∀ item gfk, item ∈ rows → gfk ∈ gfks → target_id item gfk ≠ PNone →
     is_Some (dm !! reference_key m item gfk)) →
  ∃ rows', second_pass m dm gfks rows = (rows', None).
Proof.
  induction rows as [|r rows IH]; intros Hall; simpl; [by eauto|].
  destruct (resolve_item_complete m dm gfks r) as [r' ->].
  { intros gfk. apply Hall. left. }
  destruct IH as [rest ->]; [|by eauto].
  intros item gfk Hin. apply Hall. by right.
Qed.

(** On a row set with referential integrity the resolver completes: no
    error is raised and every non-null reference is resolved. *)
Lemma resolve_rows_completes env m gfks rows :
  integral env m gfks rows →
  ∃ evs rows', resolve_rows env m gfks rows = (evs, (rows', None)).
Proof.
  intros [Htypes Hrefs]. unfold resolve_rows, build_data_map.
  destruct (fetch_targets_complete
              (in_bulk env (keys (first_pass m gfks rows)))
              (map_to_list (first_pass m gfks rows)) ∅)
    as (evs & dm & -> & _ & Hin).
  { intros ct items_ Hg. apply Htypes. by apply elem_of_map_to_list. }
  destruct (second_pass_complete m dm gfks rows) as [rows' Hsp].
  { intros item gfk Hitem Hgfk Hfk.
    destruct (Hrefs item gfk Hitem Hgfk Hfk) as (Htr & c & items_ & o & Hc & Hi & Ho & Hpk).
    unfold reference_key. rewrite <- Hpk.
    eapply Hin; [|done..]. by apply elem_of_map_to_list. }
  rewrite Hsp. eauto.
Qed.

(** Conversely, the resolver completes only on a row set with referential
    integrity. *)
Lemma resolve_rows_complete_integral env m gfks rows evs rows' :
  resolve_rows env m gfks rows = (evs, (rows', None)) →
  integral env m gfks rows.
Proof.
  intros Hrun. apply resolve_rows_complete in Hrun as (dm & Hb & Hsp).
  apply build_data_map_inv in Hb as (fevs & _ & Hf). split.
  - intros ct items_ Hct Htr.
    eapply fetch_targets_groups; [done| |done]. by apply elem_of_map_to_list.
  - intros item gfk Hitem Hgfk Hfk.
    destruct (dm !! reference_key m item gfk) as [o|] eqn:Hl; last first.
    { by pose proof (second_pass_dangling _ _ _ _ _ _ _ _
                       Hsp Hitem Hgfk Hfk Hl). }
    destruct (fetch_targets_lookup _ _ _ _ _ _ _ _ Hf Hl)
      as [Hempty|(Htr & Hpk & items_ & ct & Hin & _ & Hct & Ho)].
    { by rewrite lookup_empty in Hempty. }
    split; [done|]. exists ct, items_, o.
    split; [done|]. split; [by apply elem_of_map_to_list|]. done.
Qed.


(** The three-row scenario has referential integrity. *)
Example three_rows_integral :
  integral Sample.env Sample.Action [Sample.actor] Sample.three_rows.
Proof.
  apply (resolve_rows_complete_integral _ _ _ _
           (resolve_rows Sample.env Sample.Action [Sample.actor]
              Sample.three_rows).1
           (resolve_rows Sample.env Sample.Action [Sample.actor]
              Sample.three_rows).2.1).
  by_computation.
Qed.

(** ** The properties on the concrete activity table *)

(** C1, as stated, fails: the first pass of the code records the
    reference of a row with a null target id, where a pass that skipped it
    would build an empty grouping. *)
Lemma first_pass_does_not_skip_null_id :
  target_id Sample.null_id_row Sample.actor = PNone
  ∧ first_pass_skipping_null Sample.Action [Sample.actor] [Sample.null_id_row]
    = ∅
  ∧ first_pass Sample.Action [Sample.actor] [Sample.null_id_row]
    = {[ PInt 1 := {[ PStr "None" := ("actor", PInt 7) ]} ]}
  ∧ first_pass Sample.Action [Sample.actor] [Sample.null_id_row]
    ≠ first_pass_skipping_null Sample.Action [Sample.actor]
        [Sample.null_id_row].
Proof.
  split; [reflexivity|]. split; [reflexivity|]. split; by_computation.
Qed.

(** The row with a type tag and a null target id. *)
Lemma null_target_id_never_looked_up_witness :
  has (first_pass Sample.Action [Sample.actor] [Sample.null_id_row])
      (PInt 1) (PStr "None")
  ∧ (truthy (PInt 1) = false →
     filter (λ e, is_fetch_for (PInt 1) e)
       [ContentTypeLookup [PInt 1]; SecondaryFetch (PInt 1) [PStr "None"]]
     = [])
  ∧ (∀ dm, resolve_reference Sample.Action dm Sample.null_id_row Sample.actor
           = (Sample.null_id_row, None))
  ∧ ∃ item', [Sample.null_id_row] !! 0 = Some item'
             ∧ resolved item' !! "actor" = resolved Sample.null_id_row !! "actor".
Proof.
  apply (null_target_id_never_looked_up Sample.env Sample.Action
           [Sample.actor] [Sample.null_id_row] _ _ None 0
           Sample.null_id_row Sample.actor).
  - apply NoDup_singleton.
  - by_computation.
  - reflexivity.
  - apply list_elem_of_singleton. reflexivity.
  - reflexivity.
Defined.


(** An absent reference, both columns null, is grouped under the null type
    tag by the first pass, never fetched and never looked up. *)
Example absent_reference_not_fetched :
  first_pass Sample.Action [Sample.actor] [Sample.absent_row]
  = {[ PNone := {[ PStr "None" := ("actor", PInt 6) ]} ]}
  ∧ resolve_rows Sample.env Sample.Action [Sample.actor] [Sample.absent_row]
    = ([ContentTypeLookup [PNone]], ([Sample.absent_row], None)).
Proof. split; by_computation. Qed.

(** C3, as stated, fails: a row with a type tag and a null target id holds
    no reference, yet the resolver completes with one secondary fetch for
    its tag, asking for the id ['None']. *)
Lemma null_id_row_is_fetched :
  resolve_rows Sample.env Sample.Action [Sample.actor] [Sample.null_id_row]
  = ([ContentTypeLookup [PInt 1]; SecondaryFetch (PInt 1) [PStr "None"]],
     ([Sample.null_id_row], None))
  ∧ size (referenced_type_tags Sample.Action [Sample.actor]
            [Sample.null_id_row]) = 0
  ∧ length (secondary_fetches
              (resolve_rows Sample.env Sample.Action [Sample.actor]
                 [Sample.null_id_row]).1)
    ≠ size (referenced_type_tags Sample.Action [Sample.actor]
              [Sample.null_id_row]).
Proof. repeat split; by_computation. Qed.

(** The scenario of the specification: rows 1 and 2 reference (type 1,
    id 10), row 3 references (type 2, id 20). *)
Lemma one_fetch_per_referenced_type_tag_witness :
  length (secondary_fetches
            (resolve_rows Sample.env Sample.Action [Sample.actor]
               Sample.three_rows).1)
  = size (filter (λ c, truthy c = true)
            (referenced_type_tags Sample.Action [Sample.actor]
               Sample.three_rows))
  ∧ ∀ ct, truthy ct = true →
      ct ∈ referenced_type_tags Sample.Action [Sample.actor]
             Sample.three_rows →
      ∃ ids,
        filter (λ e, is_fetch_for ct e)
          (resolve_rows Sample.env Sample.Action [Sample.actor]
             Sample.three_rows).1
        = [SecondaryFetch ct ids]
        ∧ NoDup ids
        ∧ ∀ k, k ∈ ids ↔
            ∃ item gfk, item ∈ Sample.three_rows ∧ gfk ∈ [Sample.actor]
                        ∧ ct = type_tag Sample.Action item gfk
                        ∧ target_id item gfk ≠ PNone
                        ∧ k = smart_unicode (target_id item gfk).
Proof.
  apply (one_fetch_per_referenced_type_tag Sample.env Sample.Action
           [Sample.actor] Sample.three_rows
           [ContentTypeLookup [PInt 2; PInt 1];
            SecondaryFetch (PInt 2) [PStr "20"];
            SecondaryFetch (PInt 1) [PStr "10"]]
           Sample.three_rows_data_map).
  - intros item gfk Hitem Hgfk.
    apply list_elem_of_singleton in Hgfk as ->.
    unfold Sample.three_rows in Hitem. simpl in Hitem.
    repeat (apply elem_of_cons in Hitem as [->|Hitem]; [discriminate|]).
    by apply elem_of_nil in Hitem.
  - by_computation.
Defined.

Example three_rows_share_target :
  (λ row, resolved row !! "actor")
    <$> (resolve_rows Sample.env Sample.Action [Sample.actor]
           Sample.three_rows).2.1
  = [ Some {| obj_addr := 100; obj_pk := PStr "10" |};
      Some {| obj_addr := 100; obj_pk := PStr "10" |};
      Some {| obj_addr := 200; obj_pk := PStr "20" |} ].
Proof. by_computation. Qed.

Example three_rows_two_fetches :
  secondary_fetches
    (resolve_rows Sample.env Sample.Action [Sample.actor] Sample.three_rows).1
  = [SecondaryFetch (PInt 2) [PStr "20"]; SecondaryFetch (PInt 1) [PStr "10"]]
  ∧ size (filter (λ c, truthy c = true)
            (referenced_type_tags Sample.Action [Sample.actor]
               Sample.three_rows))
    = 2.
Proof. split; by_computation. Qed.

(** The row whose target does not exist. *)
Lemma dangling_reference_raises_KeyError_witness :
  ∃ rows',
    second_pass Sample.Action ∅ [Sample.actor] [Sample.dangling_row]
    = (rows', Some KeyError)
    ∧ resolve_rows Sample.env Sample.Action [Sample.actor] [Sample.dangling_row]
      = ([ContentTypeLookup [PInt 1]; SecondaryFetch (PInt 1) [PStr "99"]],
         (rows', Some KeyError)).
Proof.
  apply (dangling_reference_raises_KeyError Sample.env Sample.Action
           [Sample.actor] [Sample.dangling_row] _ ∅ Sample.dangling_row
           Sample.actor).
  - by_computation.
  - apply list_elem_of_singleton. reflexivity.
  - apply list_elem_of_singleton. reflexivity.
  - by_computation.
  - reflexivity.
Defined.

(** A target table with integer keys: the fetched object's key is not the
    text under which the first pass grouped the reference, and the loop of
    lines 112-114 stops with a [KeyError]. *)
Example integer_key_target_raises :
  build_data_map Sample.env Sample.Action [Sample.actor]
    [fresh_row (Sample.action (PInt 9) (PInt 3) (PStr "10"))]
  = ([ContentTypeLookup [PInt 3]; SecondaryFetch (PInt 3) [PStr "10"]],
     Raise KeyError).
Proof. by_computation. Qed.

(** ** Attaching batch specifications *)

Lemma m2m_fieldname_built env arg :
  m2m_fieldname (built env arg) = relation_of arg.2.
Proof.
  unfold built. destruct arg as [[n|] [s|b]]; simpl; try done;
    by case_decide.
Qed.

Lemma create_batch_built env m arg :
  GFKQuerySet._create_batch env m arg.2 arg.1
  = if decide (relation_of arg.2 ∈ relations m) then Ok (built env arg)
    else Raise (FieldDoesNotExist (relation_of arg.2)).
Proof.
  unfold GFKQuerySet._create_batch. fold (built env arg).
  rewrite m2m_fieldname_built. unfold _check_field_exists.
  by case_decide.
Qed.

Lemma create_batches_ok env m args :
  Forall (λ a, relation_of a.2 ∈ relations m) args →
  GFKQuerySet.create_batches env m args = Ok (built env <$> args).
Proof.
  induction 1 as [|[t b] args Ha _ IH]; simpl; [done|].
  pose proof (create_batch_built env m (t, b)) as Hc. simpl in *.
  rewrite Hc, decide_True by done. by rewrite IH.
Qed.

Lemma create_batches_raise env m args :
  ¬ Forall (λ a, relation_of a.2 ∈ relations m) args →
  ∃ a, a ∈ args ∧ (relation_of a.2 ∉ relations m)
       ∧ GFKQuerySet.create_batches env m args
         = Raise (FieldDoesNotExist (relation_of a.2)).
Proof.
  induction args as [|[t b] args IH]; simpl.
  - intros H. destruct H. constructor.
  - intros Hnot. pose proof (create_batch_built env m (t, b)) as Hc.
    simpl in Hc. rewrite Hc. case_decide as Hb.
    + destruct IH as (a & Hin & Hbad & ->).
      { intros Hall. apply Hnot. by constructor. }
      exists a. split; [by right|done].
    + exists (t, b). split; [left|done].
Qed.

Lemma batch_select_run env self batches named_batches w qs :
  heap w !! self = Some qs →
  Forall (λ a, relation_of a.2 ∈ relations (model qs))
    (batch_args batches named_batches) →
  GFKQuerySet.batch_select env self batches named_batches w
  = (Ok (length (heap w)),
     {| heap := heap w ++
          [set_batches
             (Some (attached_batches qs
                    ∪ list_to_set (built env <$> batch_args batches named_batches)))
             (cloned qs None)];
        log := log w |}).
Proof.
  intros Hself Hall. unfold batch_args in *. apply Forall_app in Hall as [Hp Hn].
  unfold GFKQuerySet.batch_select.
  rewrite (bind_run _ _ _ _ _ (deref_run _ _ _ Hself)).
  rewrite (create_batches_ok _ _ _ Hp), (create_batches_ok _ _ _ Hn).
  unfold lift_result at 1 2. unfold mbind at 1 2, M_bind at 1 2.
  rewrite (bind_run _ _ _ _ _ (clone_run _ None _ _ Hself)).
  unfold mbind, M_bind. rewrite update_last. unfold mret, M_ret.
  do 5 f_equal. unfold attached_batches.
  by rewrite fmap_app, list_to_set_app_L, (assoc_L (∪)).
Qed.

Lemma batch_select_raise env self batches named_batches w qs :
  heap w !! self = Some qs →
  ¬ Forall (λ a, relation_of a.2 ∈ relations (model qs))
      (batch_args batches named_batches) →
  ∃ a, a ∈ batch_args batches named_batches
       ∧ (relation_of a.2 ∉ relations (model qs))
       ∧ GFKQuerySet.batch_select env self batches named_batches w
         = (Raise (FieldDoesNotExist (relation_of a.2)), w).
Proof.
  intros Hself Hnot. unfold batch_args in *.
  unfold GFKQuerySet.batch_select.
  rewrite (bind_run _ _ _ _ _ (deref_run _ _ _ Hself)).
  destruct (decide (Forall (λ a, relation_of a.2 ∈ relations (model qs))
                      ((λ b, (@None string, b)) <$> batches))) as [Hp|Hp].
  - destruct (create_batches_raise env (model qs)
                ((λ nb, (Some nb.1, nb.2)) <$> named_batches))
      as (a & Hin & Hbad & Hr).
    { intros Hn. apply Hnot. by apply Forall_app. }
    exists a. split; [apply elem_of_app; by right|]. split; [done|].
    rewrite (create_batches_ok _ _ _ Hp), Hr. done.
  - destruct (create_batches_raise env (model qs) _ Hp) as (a & Hin & Hbad & Hr).
    exists a. split; [apply elem_of_app; by left|]. split; [done|].
    by rewrite Hr.
Qed.

(** C6: a call of [batch_select] in which some specification names a
    relation that does not exist on the row type raises
    [FieldDoesNotExist] naming such a relation and leaves the store and the
    log as they were: nothing is cloned, no query and no fetch is issued.
    A call in which every specification names an existing relation
    succeeds, with no event logged. *)
Theorem batch_select_validates_relations env self batches named_batches w qs :
  heap w !! self = Some qs →
  (¬ Forall (λ a, relation_of a.2 ∈ relations (model qs))
       (batch_args batches named_batches) →
   ∃ a, a ∈ batch_args batches named_batches
        ∧ (relation_of a.2 ∉ relations (model qs))
        ∧ GFKQuerySet.batch_select env self batches named_batches w
          = (Raise (FieldDoesNotExist (relation_of a.2)), w))
  ∧ (Forall (λ a, relation_of a.2 ∈ relations (model qs))
       (batch_args batches named_batches) →
     ∃ query w',
       GFKQuerySet.batch_select env self batches named_batches w
       = (Ok query, w')
       ∧ log w' = log w).
Proof.
  intros Hself. split.
  - by apply batch_select_raise.
  - intros Hall. rewrite (batch_select_run _ _ _ _ _ _ Hself Hall). eauto.
Qed.


Lemma set_batches_cloned_twice b1 b2 qs :
  set_batches b2 (cloned (set_batches b1 (cloned qs None)) None)
  = set_batches b2 (cloned qs None).
Proof.
  unfold cloned. simpl.
  destruct b1 as [s1|]; simpl; [destruct (decide (s1 = ∅))|];
    (destruct (_batches qs) as [s|]; [destruct (decide (s = ∅))|]); done.
Qed.

(** C4: after a successful [batch_select], attaching the same
    specifications again succeeds, yields a query set with the same
    attached specifications, and iterating it gives the same rows and the
    same fetches as iterating the result of the first call. *)
Theorem batch_select_idempotent env self batches named_batches w qs q1 w1 :
  heap w !! self = Some qs →
  GFKQuerySet.batch_select env self batches named_batches w = (Ok q1, w1) →
  ∃ q2 w2 o1 o2,
    GFKQuerySet.batch_select env q1 batches named_batches w1 = (Ok q2, w2)
    ∧ heap w2 !! q1 = Some o1
    ∧ heap w2 !! q2 = Some o2
    ∧ attached_batches o2 = attached_batches o1
    ∧ GFKQuerySet.iterator env q2 w2 = GFKQuerySet.iterator env q1 w2.
Proof.
  intros Hself Hrun.
  destruct (decide (Forall (λ a, relation_of a.2 ∈ relations (model qs))
                      (batch_args batches named_batches))) as [Hall|Hnot]; last first.
  { destruct (batch_select_raise env _ batches named_batches _ _ Hself Hnot)
      as (a & _ & _ & Hr). by rewrite Hr in Hrun. }
  rewrite (batch_select_run _ _ _ _ _ _ Hself Hall) in Hrun.
  injection Hrun as <- <-.
  set (new := list_to_set (built env <$> batch_args batches named_batches)
              : gset Batch).
  set (o1 := set_batches (Some (attached_batches qs ∪ new)) (cloned qs None)).
  set (w1 := {| heap := heap w ++ [o1]; log := log w |}).
  assert (heap w1 !! length (heap w) = Some o1) as H1
    by (by apply list_lookup_middle).
  assert (Forall (λ a, relation_of a.2 ∈ relations (model o1))
            (batch_args batches named_batches)) as Hall1.
  { replace (model o1) with (model qs); [done|].
    unfold o1. simpl. by rewrite cloned_model. }
  rewrite (batch_select_run _ _ _ _ _ _ H1 Hall1).
  fold new. set (o2 := set_batches _ (cloned o1 None)).
  assert (o2 = o1) as Ho.
  { unfold o2, o1. rewrite set_batches_cloned_twice. do 2 f_equal.
    unfold attached_batches at 1. simpl. set_solver. }
  exists (length (heap w1)),
         {| heap := heap w1 ++ [o2]; log := log w1 |}, o1, o2.
  split; [done|]. simpl.
  assert (((heap w ++ [o1]) ++ [o2]) !! length (heap w) = Some o1) as Hq1.
  { apply lookup_app_l_Some. by apply list_lookup_middle. }
  assert (((heap w ++ [o1]) ++ [o2]) !! length (heap w ++ [o1]) = Some o2)
    as Hq2 by (by apply list_lookup_middle).
  split; [done|]. split; [done|]. split; [by rewrite Ho|].
  rewrite (iterator_run env _ _ o2) by done.
  rewrite (iterator_run env _ _ o1) by done. by rewrite Ho.
Qed.

(** C9: on a query set with no specification attached, [iterator] returns
    the rows of the underlying iterator as they are; with specifications
    attached it takes the rows of the underlying iterator once and folds
    the batch collection fetcher over the attached specifications, the
    rows returned for one specification being the input for the next. *)
Theorem iterator_threads_batches env self w qs :
  heap w !! self = Some qs →
  (attached_batches qs = ∅ →
   GFKQuerySet.iterator env self w
   = (Ok (super_iterator qs).2,
      {| heap := heap w; log := log w ++ (super_iterator qs).1 |}))
  ∧ (attached_batches qs ≠ ∅ →
     GFKQuerySet.iterator env self w
     = (Ok (foldl (λ results batch,
                     batch_select_instances env results
                       (target_field_name batch) (m2m_fieldname batch)
                       (replay batch))
                  (super_iterator qs).2 (elements (attached_batches qs))),
        {| heap := heap w;
           log := log w ++ (super_iterator qs).1
                  ++ batch_fetches (elements (attached_batches qs)) |}))
  ∧ length (filter (λ e, e = PrimaryQuery) (super_iterator qs).1) ≤ 1.
Proof.
  intros Hself. rewrite (iterator_run _ _ _ _ Hself).
  unfold iterated, attached_batches. split; [|split].
  - destruct (_batches qs) as [b|]; simpl.
    + intros ->. rewrite decide_True by done. by destruct (super_iterator qs).
    + intros _. by destruct (super_iterator qs).
  - destruct (_batches qs) as [b|]; simpl; [|done].
    intros Hne. by rewrite decide_False.
  - unfold super_iterator. destruct (klass qs); simpl; lia.
Qed.

(** ** The resolver on the store *)

Lemma batch_select_instances_resolved env rows target fieldname replay_ :
  Forall (λ row, resolved row = ∅) rows →
  Forall (λ row, resolved row = ∅)
    (batch_select_instances env rows target fieldname replay_).
Proof.
  unfold batch_select_instances. intros H. apply Forall_fmap.
  by eapply Forall_impl.
Qed.

Lemma apply_batches_resolved env batches rows :
  Forall (λ row, resolved row = ∅) rows →
  Forall (λ row, resolved row = ∅) (GFKQuerySet.apply_batches env batches rows).
Proof.
  unfold GFKQuerySet.apply_batches. revert rows.
  induction batches as [|b batches IH]; intros rows Hrows; simpl; [done|].
  by apply IH, batch_select_instances_resolved.
Qed.

(** The rows that [iterator()] yields have every resolved slot unset. *)
Lemma iterated_rows_unresolved env qs :
  Forall (λ row, resolved row = ∅) (iterated env qs).2.
Proof.
  assert (Forall (λ row, resolved row = ∅) (super_iterator qs).2) as Hs.
  { unfold super_iterator. destruct (klass qs); simpl; [|done].
    apply Forall_fmap, Forall_forall. done. }
  unfold iterated. destruct (_batches qs) as [b|]; [|done].
  case_decide; [done|]. simpl. by apply apply_batches_resolved.
Qed.

Lemma secondary_fetches_app evs1 evs2 :
  secondary_fetches (evs1 ++ evs2)
  = secondary_fetches evs1 ++ secondary_fetches evs2.
Proof. unfold secondary_fetches. apply filter_app. Qed.

(** Iterating a query set issues none of the resolver's fetches. *)
Lemma secondary_fetches_iterated env qs :
  secondary_fetches (iterated env qs).1 = [].
Proof.
  assert (secondary_fetches (super_iterator qs).1 = []) as Hs.
  { unfold super_iterator. by destruct (klass qs). }
  unfold iterated. destruct (_batches qs) as [b|]; [|done].
  case_decide; [done|]. simpl. rewrite secondary_fetches_app, Hs. simpl.
  unfold secondary_fetches, batch_fetches.
  apply filter_nil_Forall, Forall_fmap, Forall_forall. intros x _. simpl. tauto.
Qed.

Lemma dispatch_GFKQuerySet env self args w this :
  heap w !! self = Some this → klass this = GFKQuerySet_class →
  fetch_generic_relations env self args w
  = GFKQuerySet.fetch_generic_relations env self args w.
Proof.
  intros Hself Hk. unfold fetch_generic_relations.
  by rewrite (bind_run _ _ _ _ _ (deref_run _ _ _ Hself)), Hk.
Qed.

Lemma fetch_generic_relations_disabled_run env self args w this :
  heap w !! self = Some this →
  FETCH_RELATIONS env = false →
  GFKQuerySet.fetch_generic_relations env self args w
  = (Ok (length (heap w)),
     {| heap := heap w ++ [cloned this None]; log := log w |}).
Proof.
  intros Hself Hfetch. unfold GFKQuerySet.fetch_generic_relations.
  rewrite (bind_run _ _ _ _ _ (deref_run _ _ _ Hself)).
  rewrite (bind_run _ _ _ _ _ (clone_run _ None _ _ Hself)).
  by rewrite Hfetch.
Qed.

Lemma fetch_generic_relations_prefetch_run env self args w this :
  heap w !! self = Some this →
  FETCH_RELATIONS env = true →
  USE_PREFETCH env && has_prefetch_related env = true →
  GFKQuerySet.fetch_generic_relations env self args w
  = (Ok (S (length (heap w))),
     {| heap := heap w ++
          [cloned this None;
           add_prefetch_related_lookups
             (name <$> gfk_fields (model this) args)
             (cloned (cloned this None) None)];
        log := log w |}).
Proof.
  intros Hself Hfetch Hpre. unfold GFKQuerySet.fetch_generic_relations.
  rewrite (bind_run _ _ _ _ _ (deref_run _ _ _ Hself)).
  rewrite (bind_run _ _ _ _ _ (clone_run _ None _ _ Hself)).
  rewrite Hfetch, Hpre. simpl. unfold GFKQuerySet.prefetch_related.
  set (w1 := {| heap := heap w ++ [cloned this None]; log := log w |}).
  assert (heap w1 !! length (heap w) = Some (cloned this None)) as H1
    by (by apply list_lookup_middle).
  rewrite (bind_run _ _ _ _ _ (clone_run _ None _ _ H1)).
  unfold mbind, M_bind. rewrite update_last. unfold mret, M_ret. simpl.
  rewrite length_app. simpl. rewrite Nat.add_1_r, <- app_assoc. done.
Qed.

(** C8: with [FETCH_RELATIONS] disabled the call returns a fresh,
    unevaluated clone and logs nothing; iterating that clone yields rows
    whose resolved slots are all unset, and still no secondary fetch of
    the resolver is in the log. *)
Theorem eager_resolution_disabled env self args w this :
  heap w !! self = Some this →
  klass this = GFKQuerySet_class →
  FETCH_RELATIONS env = false →
  ∃ qs w',
    fetch_generic_relations env self args w = (Ok qs, w')
    ∧ log w' = log w
    ∧ ∃ rows w'',
        GFKQuerySet.iter env qs w' = (Ok rows, w'')
        ∧ Forall (λ row, resolved row = ∅) rows
        ∧ secondary_fetches (log w'') = secondary_fetches (log w).
Proof.
  intros Hself Hk Hfetch.
  rewrite (dispatch_GFKQuerySet _ _ _ _ _ Hself Hk).
  rewrite (fetch_generic_relations_disabled_run _ _ _ _ _ Hself Hfetch).
  eexists _, _. split; [done|]. split; [done|].
  rewrite (iter_last_run env _ _ _ (cloned_result_cache this None)).
  eexists _, _. split; [done|]. split; [apply iterated_rows_unresolved|].
  simpl. rewrite secondary_fetches_app, secondary_fetches_iterated.
  by rewrite app_nil_r.
Qed.

(** C10: whatever the outcome of [fetch_generic_relations], every object
    of the store, the receiver included, is left as it was; on a query set
    of class GFKQuerySet a returned object is a new one, carrying the
    attached specifications of the receiver; on an empty query set the
    method returns the receiver and leaves store and log untouched. *)
Theorem fetch_generic_relations_leaves_receiver env self args w this r w' :
  heap w !! self = Some this →
  fetch_generic_relations env self args w = (r, w') →
  heap w `prefix_of` heap w'
  ∧ heap w' !! self = Some this
  ∧ (klass this = GFKQuerySet_class → ∀ qs, r = Ok qs →
       qs ≠ self
       ∧ ∃ clone, heap w' !! qs = Some clone
                  ∧ attached_batches clone = attached_batches this)
  ∧ (klass this = EmptyGFKQuerySet_class →
       EmptyGFKQuerySet.fetch_generic_relations self w = (Ok self, w)
       ∧ (args = [] → r = Ok self ∧ w' = w)).
Proof.
  intros Hself Hrun.
  assert (self < length (heap w)) as Hlt by (by eapply lookup_lt_Some).
  destruct (klass this) eqn:Hk.
  - rewrite (dispatch_GFKQuerySet _ _ _ _ _ Hself Hk) in Hrun.
    destruct (FETCH_RELATIONS env) eqn:Hfetch;
      [destruct (USE_PREFETCH env && has_prefetch_related env) eqn:Hpre|].
    + rewrite (fetch_generic_relations_prefetch_run _ _ _ _ _ Hself Hfetch Hpre)
        in Hrun. injection Hrun as <- <-. simpl.
      split; [by apply prefix_app_r|].
      split; [by apply lookup_app_l_Some|]. split; [|done].
      intros _ qs [= <-]. split; [lia|]. eexists. split.
      * rewrite (lookup_app_r (heap w)) by lia.
        by replace (S (length (heap w)) - length (heap w)) with 1 by lia.
      * unfold attached_batches. simpl. fold (attached_batches (cloned (cloned this None) None)).
        by rewrite !cloned_attached_batches.
    + rewrite (fetch_generic_relations_run _ _ _ _ _ Hself Hfetch Hpre) in Hrun.
      simpl in Hrun. injection Hrun as <- <-. simpl.
      split; [by apply prefix_app_r|].
      split; [by apply lookup_app_l_Some|]. split; [|done].
      intros _ qs Hqs.
      destruct (resolve_rows _ _ _ _) as [evs [rows' [e|]]]; simpl in *; [done|].
      injection Hqs as <-. split; [lia|]. eexists.
      split; [by apply list_lookup_middle|].
      unfold attached_batches. simpl. fold (attached_batches (cloned this None)).
      by rewrite cloned_attached_batches.
    + rewrite (fetch_generic_relations_disabled_run _ _ _ _ _ Hself Hfetch)
        in Hrun. injection Hrun as <- <-. simpl.
      split; [by apply prefix_app_r|].
      split; [by apply lookup_app_l_Some|]. split; [|done].
      intros _ qs [= <-]. split; [lia|]. eexists.
      split; [by apply list_lookup_middle|]. apply cloned_attached_batches.
  - unfold fetch_generic_relations in Hrun.
    rewrite (bind_run _ _ _ _ _ (deref_run _ _ _ Hself)), Hk in Hrun.
    assert (heap w `prefix_of` heap w' ∧ heap w' !! self = Some this
            ∧ (args = [] → r = Ok self ∧ w' = w)) as (? & ? & ?).
    { destruct args; injection Hrun as <- <-; done. }
    done.
Qed.

(** A successful call returns the clone whose cached rows are those that
    [resolve_rows] leaves, and adds to the log the events of the iteration
    followed by those of [resolve_rows]. *)
Lemma fetch_generic_relations_resolves env self args w this qs w' :
  heap w !! self = Some this →
  klass this = GFKQuerySet_class →
  FETCH_RELATIONS env = true →
  USE_PREFETCH env && has_prefetch_related env = false →
  fetch_generic_relations env self args w = (Ok qs, w') →
  ∃ evs rows' clone,
    resolve_rows env (model this) (gfk_fields (model this) args)
      (iterated env (cloned this None)).2 = (evs, (rows', None))
    ∧ heap w' !! qs = Some clone
    ∧ _result_cache clone = Some rows'
    ∧ log w' = log w ++ (iterated env (cloned this None)).1 ++ evs.
Proof.
  intros Hself Hk Hfetch Hpre.
  rewrite (dispatch_GFKQuerySet _ _ _ _ _ Hself Hk).
  rewrite (fetch_generic_relations_run _ _ _ _ _ Hself Hfetch Hpre). simpl.
  destruct (resolve_rows _ _ _ _) as [evs [rows' [e|]]]; simpl; [done|].
  intros [= <- <-]. exists evs, rows'. eexists. split; [done|]. simpl.
  split; [by apply list_lookup_middle|]. done.
Qed.

(** After a successful call, the resolved slot of a field with a null
    target id is unset in the row of the returned clone. *)
Lemma fetch_generic_relations_null_unset
    env self args w this qs w' i item gfk :
  heap w !! self = Some this →
  klass this = GFKQuerySet_class →
  FETCH_RELATIONS env = true →
  USE_PREFETCH env && has_prefetch_related env = false →
  NoDup (name <$> gfk_fields (model this) args) →
  fetch_generic_relations env self args w = (Ok qs, w') →
  (iterated env (cloned this None)).2 !! i = Some item →
  gfk ∈ gfk_fields (model this) args →
  target_id item gfk = PNone →
  ∃ clone rows' item',
    heap w' !! qs = Some clone
    ∧ _result_cache clone = Some rows'
    ∧ rows' !! i = Some item'
    ∧ resolved item' !! name gfk = None.
Proof.
  intros Hself Hk Hfetch Hpre Hnd Hrun Hi Hg Hnull.
  destruct (fetch_generic_relations_resolves _ _ _ _ _ _ _
              Hself Hk Hfetch Hpre Hrun)
    as (evs & rows' & clone & Hres & Hclone & Hcache & _).
  destruct (resolve_rows_slot_kept _ _ _ _ _ _ _ _ _ _ Hnd Hres Hi Hg Hnull)
    as (item' & Hi' & Hslot).
  exists clone, rows', item'. repeat split; [done..|].
  rewrite Hslot.
  pose proof (iterated_rows_unresolved env (cloned this None)) as Hall.
  rewrite Forall_forall in Hall.
  rewrite (Hall item) by (by eapply list_elem_of_lookup_2). done.
Qed.

(** A dangling reference surfaces from the call itself. *)
Lemma fetch_generic_relations_dangling env self args w this evs dm item gfk :
  heap w !! self = Some this →
  klass this = GFKQuerySet_class →
  FETCH_RELATIONS env = true →
  USE_PREFETCH env && has_prefetch_related env = false →
  build_data_map env (model this) (gfk_fields (model this) args)
    (iterated env (cloned this None)).2 = (evs, Ok dm) →
  item ∈ (iterated env (cloned this None)).2 →
  gfk ∈ gfk_fields (model this) args →
  target_id item gfk ≠ PNone →
  dm !! reference_key (model this) item gfk = None →
  ∃ w', fetch_generic_relations env self args w = (Raise KeyError, w').
Proof.
  intros Hself Hk Hfetch Hpre Hb Hin Hg Hfk Hnone.
  rewrite (dispatch_GFKQuerySet _ _ _ _ _ Hself Hk).
  rewrite (fetch_generic_relations_run _ _ _ _ _ Hself Hfetch Hpre). simpl.
  rewrite (resolve_rows_second_pass _ _ _ _ _ _ Hb). simpl.
  destruct (second_pass _ _ _ _) as [rows' err] eqn:Hsp.
  rewrite (second_pass_dangling _ _ _ _ _ _ _ _ Hsp Hin Hg Hfk Hnone).
  simpl. eauto.
Qed.

(** ** The store properties on the concrete activity table *)

Lemma batch_select_validates_relations_witness :
  (¬ Forall (λ a, relation_of a.2 ∈ relations Sample.Action)
       (batch_args [BStr "tags"; BStr "likes"] []) →
   ∃ a, a ∈ batch_args [BStr "tags"; BStr "likes"] []
        ∧ (relation_of a.2 ∉ relations Sample.Action)
        ∧ GFKQuerySet.batch_select Sample.env 0 [BStr "tags"; BStr "likes"] []
            Sample.world
          = (Raise (FieldDoesNotExist (relation_of a.2)), Sample.world))
  ∧ (Forall (λ a, relation_of a.2 ∈ relations Sample.Action)
       (batch_args [BStr "tags"; BStr "likes"] []) →
     ∃ query w',
       GFKQuerySet.batch_select Sample.env 0 [BStr "tags"; BStr "likes"] []
         Sample.world
       = (Ok query, w')
       ∧ log w' = log Sample.world).
Proof.
  apply (batch_select_validates_relations Sample.env 0
           [BStr "tags"; BStr "likes"] [] Sample.world Sample.actions).
  reflexivity.
Defined.

Example batch_select_unknown_relation :
  GFKQuerySet.batch_select Sample.env 0 [BStr "tags"; BStr "likes"] []
    Sample.world
  = (Raise (FieldDoesNotExist "likes"), Sample.world).
Proof. reflexivity. Qed.


(** Attaching [tags] twice. *)
Lemma batch_select_idempotent_witness :
  ∃ q2 w2 o1 o2,
    GFKQuerySet.batch_select Sample.env 1 [BStr "tags"] []
      (GFKQuerySet.batch_select Sample.env 0 [BStr "tags"] [] Sample.world).2
    = (Ok q2, w2)
    ∧ heap w2 !! 1 = Some o1
    ∧ heap w2 !! q2 = Some o2
    ∧ attached_batches o2 = attached_batches o1
    ∧ GFKQuerySet.iterator Sample.env q2 w2
      = GFKQuerySet.iterator Sample.env 1 w2.
Proof.
  apply (batch_select_idempotent Sample.env 0 [BStr "tags"] [] Sample.world
           Sample.actions).
  - reflexivity.
  - reflexivity.
Defined.

(** Iterating the query set that has [tags] attached. *)
Lemma iterator_threads_batches_witness :
  let w1 := (GFKQuerySet.batch_select Sample.env 0 [BStr "tags"] []
               Sample.world).2 in
  ∃ qs, heap w1 !! 1 = Some qs
  ∧ (attached_batches qs = ∅ →
     GFKQuerySet.iterator Sample.env 1 w1
     = (Ok (super_iterator qs).2,
        {| heap := heap w1; log := log w1 ++ (super_iterator qs).1 |}))
  ∧ (attached_batches qs ≠ ∅ →
     GFKQuerySet.iterator Sample.env 1 w1
     = (Ok (foldl (λ results batch,
                     batch_select_instances Sample.env results
                       (target_field_name batch) (m2m_fieldname batch)
                       (replay batch))
                  (super_iterator qs).2 (elements (attached_batches qs))),
        {| heap := heap w1;
           log := log w1 ++ (super_iterator qs).1
                  ++ batch_fetches (elements (attached_batches qs)) |}))
  ∧ length (filter (λ e, e = PrimaryQuery) (super_iterator qs).1) ≤ 1.
Proof.
  eexists. split; [reflexivity|].
  apply (iterator_threads_batches Sample.env 1). reflexivity.
Defined.

Example iterator_with_batch :
  (GFKQuerySet.iterator Sample.env 1
     (GFKQuerySet.batch_select Sample.env 0 [BStr "tags"] [] Sample.world).2).1
  = Ok ((λ r, {| pk := pk r; columns := columns r; resolved := ∅;
                 attached := {[ "tags_all" := [] ]} |})
          <$> Sample.three_rows)
  ∧ log (GFKQuerySet.iterator Sample.env 1
           (GFKQuerySet.batch_select Sample.env 0 [BStr "tags"] []
              Sample.world).2).2
    = [PrimaryQuery; BatchFetch "tags_all" "tags"].
Proof. split; by_computation. Qed.

(** The call on the query set of all actions with resolution disabled. *)
Lemma eager_resolution_disabled_witness :
  ∃ qs w',
    fetch_generic_relations Sample.env_disabled 0 [] Sample.world = (Ok qs, w')
    ∧ log w' = log Sample.world
    ∧ ∃ rows w'',
        GFKQuerySet.iter Sample.env_disabled qs w' = (Ok rows, w'')
        ∧ Forall (λ row, resolved row = ∅) rows
        ∧ secondary_fetches (log w'') = secondary_fetches (log Sample.world).
Proof.
  apply (eager_resolution_disabled Sample.env_disabled 0 [] Sample.world
           Sample.actions); reflexivity.
Defined.

(** The call on the query set of all actions, restricted to [actor]. *)
Lemma fetch_generic_relations_leaves_receiver_witness :
  let out := fetch_generic_relations Sample.env 0 ["actor"] Sample.world in
  heap Sample.world `prefix_of` heap out.2
  ∧ heap out.2 !! 0 = Some Sample.actions
  ∧ (klass Sample.actions = GFKQuerySet_class → ∀ qs, out.1 = Ok qs →
       qs ≠ 0
       ∧ ∃ clone, heap out.2 !! qs = Some clone
                  ∧ attached_batches clone = attached_batches Sample.actions)
  ∧ (klass Sample.actions = EmptyGFKQuerySet_class →
       EmptyGFKQuerySet.fetch_generic_relations 0 Sample.world
       = (Ok 0, Sample.world)
       ∧ (["actor"] = [] → out.1 = Ok 0 ∧ out.2 = Sample.world)).
Proof.
  apply (fetch_generic_relations_leaves_receiver Sample.env 0 ["actor"]
           Sample.world Sample.actions).
  - reflexivity.
  - apply surjective_pairing.
Defined.

(** The calls on the concrete store: the resolver evaluates a clone and
    fetches once per type; on the empty query set it returns the receiver. *)
Example fetch_generic_relations_on_actions :
  (fetch_generic_relations Sample.env 0 [] Sample.world).1 = Ok 1
  ∧ log (fetch_generic_relations Sample.env 0 [] Sample.world).2
    = [PrimaryQuery; ContentTypeLookup [PInt 2; PInt 1];
       SecondaryFetch (PInt 2) [PStr "20"];
       SecondaryFetch (PInt 1) [PStr "10"]]
  ∧ heap (fetch_generic_relations Sample.env 0 [] Sample.world).2 !! 0
    = Some Sample.actions.
Proof. split; [by_computation|]. split; [by_computation|reflexivity]. Qed.

Example fetch_generic_relations_on_none :
  GFKQuerySet.none 0 Sample.world = (Ok 1, Sample.world_none)
  ∧ fetch_generic_relations Sample.env 1 [] Sample.world_none
    = (Ok 1, Sample.world_none).
Proof. split; reflexivity. Qed.

(** * Further properties of the resolver *)

(** ** Errors of the resolver *)

Lemma record_objects_error ct_id items_ objs dm e :
  record_objects ct_id items_ objs dm = Raise e → e = KeyError.
Proof.
  revert dm. induction objs as [|x objs IH]; intros dm; simpl; [done|].
  destruct (items_ !! obj_pk x); [apply IH|]. by intros [= <-].
Qed.

Lemma fetch_targets_error ctypes groups dm evs e :
  fetch_targets ctypes groups dm = (evs, Raise e) → e = KeyError.
Proof.
  revert dm evs. induction groups as [|[ct_id items_] groups IH];
    intros dm evs; simpl; [done|].
  destruct (truthy ct_id); [|apply IH].
  destruct (ctypes !! ct_id) as [ct|]; [|by intros [= _ <-]].
  destruct (record_objects _ _ _ _) as [dm1|e1] eqn:Hrec.
  - destruct (fetch_targets ctypes groups dm1) as [evs1 r1] eqn:Hrest.
    intros [= _ ->]. by eapply IH.
  - intros [= _ <-]. by eapply record_objects_error.
Qed.

(** An error of the fetch loop is a [KeyError] and leaves every row as it
    was: the second pass is not reached. *)
Lemma resolve_rows_fetch_failure env m gfks rows evs e :
  build_data_map env m gfks rows = (evs, Raise e) →
  resolve_rows env m gfks rows = (evs, (rows, Some KeyError)).
Proof.
  intros Hb. unfold resolve_rows. rewrite Hb.
  apply build_data_map_inv in Hb as (fevs & _ & Hf).
  by rewrite (fetch_targets_error _ _ _ _ _ Hf).
Qed.

Lemma first_pass_no_fields m rows : first_pass m [] rows = ∅.
Proof. unfold first_pass. by induction rows as [|r rows IH]. Qed.

Lemma second_pass_no_fields m dm rows : second_pass m dm [] rows = (rows, None).
Proof. induction rows as [|r rows IH]; simpl; [done|]. by rewrite IH. Qed.

Lemma resolve_rows_empty_grouping env m gfks rows :
  first_pass m gfks rows = ∅ →
  resolve_rows env m gfks rows
  = ([ContentTypeLookup []], second_pass m ∅ gfks rows).
Proof.
  intros Hfp. unfold resolve_rows, build_data_map. rewrite Hfp.
  unfold keys. by rewrite map_to_list_empty.
Qed.

Lemma resolve_rows_no_fields env m rows :
  resolve_rows env m [] rows = ([ContentTypeLookup []], (rows, None)).
Proof.
  rewrite resolve_rows_empty_grouping by apply first_pass_no_fields.
  by rewrite second_pass_no_fields.
Qed.

(** X1: with no row or no selected field there is nothing to resolve: the
    resolver asks for the content types of an empty id list, issues no
    secondary fetch, raises nothing and returns the rows as they are. *)
Theorem nothing_to_resolve env m gfks rows :
  rows = [] ∨ gfks = [] →
  resolve_rows env m gfks rows = ([ContentTypeLookup []], (rows, None)).
Proof.
  intros [-> | ->].
  - by rewrite resolve_rows_empty_grouping.
  - apply resolve_rows_no_fields.
Qed.

(** The three rows with no field selected. *)
Lemma nothing_to_resolve_witness :
  resolve_rows Sample.env Sample.Action [] Sample.three_rows
  = ([ContentTypeLookup []], (Sample.three_rows, None)).
Proof.
  apply (nothing_to_resolve Sample.env Sample.Action [] Sample.three_rows).
  right. reflexivity.
Defined.

(** ** The selected fields (lines 85-88) *)

Lemma elem_of_generic_fields m g :
  g ∈ gfk_fields m [] ↔ Generic g ∈ virtual_fields m.
Proof.
  unfold gfk_fields. rewrite list_elem_of_omap. split.
  - intros ([g'|n] & Hin & Hg); simpl in Hg; [|done]. by injection Hg as ->.
  - intros Hin. by exists (Generic g).
Qed.

Lemma gfk_fields_filter m args :
  args ≠ [] →
  gfk_fields m args = filter (λ g, name g ∈ args) (gfk_fields m []).
Proof. by destruct args. Qed.

(** X2: the selected fields are the generic foreign keys of the model that
    the call names, all of them when it names none, in the order of the
    model; other virtual fields are never selected, and distinct names in
    the model stay distinct in the selection. *)
Theorem gfk_fields_selects_named m args :
  NoDup (name <$> gfk_fields m []) →
  NoDup (name <$> gfk_fields m args)
  ∧ gfk_fields m args `sublist_of` gfk_fields m []
  ∧ ∀ g, g ∈ gfk_fields m args ↔
         Generic g ∈ virtual_fields m ∧ (args = [] ∨ name g ∈ args).
Proof.
  intros Hnd. destruct (decide (args = [])) as [->|Hargs].
  - split; [done|]. split; [done|]. intros g.
    rewrite elem_of_generic_fields. naive_solver.
  - rewrite (gfk_fields_filter m args Hargs). split; [|split].
    + apply (sublist_NoDup _ (name <$> gfk_fields m [])); [done|].
      apply fmap_sublist, sublist_filter.
    + apply sublist_filter.
    + intros g. rewrite list_elem_of_filter, elem_of_generic_fields.
      naive_solver.
Qed.

(** The fields of [Action] selected by the name [actor]. *)
Lemma gfk_fields_selects_named_witness :
  NoDup (name <$> gfk_fields Sample.Action ["actor"])
  ∧ gfk_fields Sample.Action ["actor"] `sublist_of` gfk_fields Sample.Action []
  ∧ ∀ g, g ∈ gfk_fields Sample.Action ["actor"] ↔
         Generic g ∈ virtual_fields Sample.Action
         ∧ (["actor"] = [] ∨ name g ∈ ["actor"]).
Proof.
  apply (gfk_fields_selects_named Sample.Action ["actor"]).
  by_computation.
Defined.

(** X3: a call that names only fields the model does not declare as
    generic foreign keys selects nothing and is not rejected: the resolver
    completes with no secondary fetch and leaves the rows as they are. *)
Theorem unknown_field_names_are_ignored env m args rows :
  args ≠ [] →
  (∀ g, Generic g ∈ virtual_fields m → name g ∉ args) →
  gfk_fields m args = []
  ∧ resolve_rows env m (gfk_fields m args) rows
    = ([ContentTypeLookup []], (rows, None)).
Proof.
  intros Hargs Hunknown.
  assert (gfk_fields m args = []) as ->.
  { rewrite (gfk_fields_filter m args Hargs).
    apply filter_nil_Forall, Forall_forall. intros g Hg.
    apply Hunknown. by apply elem_of_generic_fields. }
  split; [done|]. apply resolve_rows_no_fields.
Qed.

(** [Action] has no generic foreign key named [target]. *)
Lemma unknown_field_names_are_ignored_witness :
  gfk_fields Sample.Action ["target"] = []
  ∧ resolve_rows Sample.env Sample.Action
      (gfk_fields Sample.Action ["target"]) Sample.three_rows
    = ([ContentTypeLookup []], (Sample.three_rows, None)).
Proof.
  apply (unknown_field_names_are_ignored Sample.env Sample.Action ["target"]
           Sample.three_rows).
  - discriminate.
  - intros g Hg.
    apply elem_of_cons in Hg as [Hg|Hg]; [discriminate|].
    apply list_elem_of_singleton in Hg. injection Hg as ->. by_computation.
Defined.

(** ** Missing content types and unrequested keys (lines 102-114) *)

Lemma fetch_targets_not_fetched ctypes groups dm evs r ct :
  ctypes !! ct = None →
  fetch_targets ctypes groups dm = (evs, r) →
  filter (λ e, is_fetch_for ct e) evs = [].
Proof.
  intros Hct. revert dm evs r.
  induction groups as [|[ct_id items_] groups IH]; intros dm evs r; simpl.
  - by intros [= <- _].
  - destruct (truthy ct_id); [|apply IH].
    destruct (ctypes !! ct_id) as [c|] eqn:Hc; [|by intros [= <- _]].
    assert (ct_id ≠ ct) as Hne by congruence.
    destruct (record_objects _ _ _ _) as [dm1|e1].
    + destruct (fetch_targets ctypes groups dm1) as [evs1 r1] eqn:Hrest.
      intros [= <- _]. rewrite filter_cons_False.
      * by eapply IH.
      * simpl. rewrite bool_decide_eq_false_2; [tauto|done].
    + intros [= <- _]. rewrite filter_cons_False; [done|].
      simpl. rewrite bool_decide_eq_false_2; [tauto|done].
Qed.

(** X4: when the rows store a truthy type tag for which the bulk lookup
    returns no content type, the resolver ends with a [KeyError], never
    fetches that type and leaves every row as it was. *)
Theorem missing_content_type_raises env m gfks rows ct :
  ct ∈ stored_type_tags m gfks rows →
  truthy ct = true →
  in_bulk env (keys (first_pass m gfks rows)) !! ct = None →
  ∃ evs,
    resolve_rows env m gfks rows = (evs, (rows, Some KeyError))
    ∧ filter (λ e, is_fetch_for ct e) evs = [].
Proof.
  intros Hin Htr Hnone. rewrite <- dom_first_pass in Hin.
  apply elem_of_dom in Hin as [items_ Hitems].
  destruct (build_data_map env m gfks rows) as [evs r] eqn:Hb.
  pose proof Hb as Hb'.
  apply build_data_map_inv in Hb' as (fevs & -> & Hf).
  assert (filter (λ e, is_fetch_for ct e)
            (ContentTypeLookup (keys (first_pass m gfks rows)) :: fevs) = [])
    as Hnot.
  { rewrite filter_cons_False by (simpl; tauto).
    by eapply fetch_targets_not_fetched. }
  destruct r as [dm|e].
  - destruct (fetch_targets_groups _ _ _ _ _ ct items_ Hf) as (c & Hc & _);
      [by apply elem_of_map_to_list|done|congruence].
  - eexists. split; [by eapply resolve_rows_fetch_failure|done].
Qed.

(** Type 5 has no content type. *)
Lemma missing_content_type_raises_witness :
  ∃ evs,
    resolve_rows Sample.env Sample.Action [Sample.actor]
      [Sample.unknown_type_row]
    = (evs, ([Sample.unknown_type_row], Some KeyError))
    ∧ filter (λ e, is_fetch_for (PInt 5) e) evs = [].
Proof.
  apply (missing_content_type_raises Sample.env Sample.Action [Sample.actor]
           [Sample.unknown_type_row] (PInt 5)).
  - by_computation.
  - reflexivity.
  - reflexivity.
Defined.

Lemma first_pass_keys_text m gfks rows ct items_ k :
  first_pass m gfks rows !! ct = Some items_ → is_Some (items_ !! k) →
  ∃ s, k = PStr s.
Proof.
  intros Hct Hk.
  assert (has (first_pass m gfks rows) ct k) as Hhas by (by exists items_).
  apply has_first_pass in Hhas as (item & g & _ & _ & _ & ->).
  unfold smart_unicode. destruct (target_id item g); eauto.
Qed.

(** X5: when the fetch for a type returns an object whose key is not one
    of the ids asked for, as every object with an integer or null key is,
    the ids being texts, the resolver ends with a [KeyError] and leaves
    every row as it was. *)
Theorem unrequested_key_raises env m gfks rows ct items_ c o :
  first_pass m gfks rows !! ct = Some items_ →
  truthy ct = true →
  in_bulk env (keys (first_pass m gfks rows)) !! ct = Some c →
  o ∈ target_objects (model_class c) (keys items_) →
  obj_pk o ∉ keys items_ ∨ (∀ s, obj_pk o ≠ PStr s) →
  ∃ evs, resolve_rows env m gfks rows = (evs, (rows, Some KeyError)).
Proof.
  intros Hitems Htr Hc Ho Hkey.
  assert (items_ !! obj_pk o = None) as Hnone.
  { destruct (items_ !! obj_pk o) as [v|] eqn:Hl; [|done]. exfalso.
    destruct Hkey as [Hnot|Hnot].
    - apply Hnot, elem_of_keys. eauto.
    - destruct (first_pass_keys_text m gfks rows ct items_ (obj_pk o))
        as [s Hs]; [done|by eauto|]. by apply (Hnot s). }
  destruct (build_data_map env m gfks rows) as [evs r] eqn:Hb.
  destruct r as [dm|e]; [|eexists; by eapply resolve_rows_fetch_failure].
  apply build_data_map_inv in Hb as (fevs & -> & Hf).
  destruct (fetch_targets_groups _ _ _ _ _ ct items_ Hf) as (c' & Hc' & Hall);
    [by apply elem_of_map_to_list|done|].
  rewrite Hc in Hc'. injection Hc' as <-.
  destruct (Hall o Ho) as [v Hv]. congruence.
Qed.

(** The table of type 3 has integer keys. *)
Lemma unrequested_key_raises_witness :
  ∃ evs,
    resolve_rows Sample.env Sample.Action [Sample.actor]
      [Sample.integer_key_row]
    = (evs, ([Sample.integer_key_row], Some KeyError)).
Proof.
  apply (unrequested_key_raises Sample.env Sample.Action [Sample.actor]
           [Sample.integer_key_row] (PInt 3)
           {[ PStr "10" := ("actor", PInt 9) ]}
           {| model_class :=
                Sample.table [ {| obj_addr := 300; obj_pk := PInt 10 |} ] |}
           {| obj_addr := 300; obj_pk := PInt 10 |}).
  - by_computation.
  - reflexivity.
  - reflexivity.
  - by_computation.
  - right. discriminate.
Defined.

(** X6: however the resolver ends, every secondary fetch of its log is
    for a truthy type tag stored in the rows, and asks, without
    duplicates, only for texts of target ids that the rows store beside
    that tag. *)
Theorem fetches_ask_stored_ids env m gfks rows ct ids :
  SecondaryFetch ct ids ∈ (resolve_rows env m gfks rows).1 →
  truthy ct = true
  ∧ ct ∈ stored_type_tags m gfks rows
  ∧ NoDup ids
  ∧ ∀ k, k ∈ ids →
      ∃ item gfk, item ∈ rows ∧ gfk ∈ gfks ∧ ct = type_tag m item gfk
                  ∧ k = smart_unicode (target_id item gfk).
Proof.
  rewrite resolve_rows_events.
  destruct (build_data_map env m gfks rows) as [evs r] eqn:Hb. simpl.
  apply build_data_map_inv in Hb as (fevs & -> & Hf).
  apply fetch_targets_events in Hf as [[rest Hpre] _].
  intros Hin. apply elem_of_cons in Hin as [?|Hin]; [done|].
  assert (SecondaryFetch ct ids
            ∈ omap fetch_event (map_to_list (first_pass m gfks rows))) as Hev
    by (rewrite Hpre; apply elem_of_app; by left).
  apply list_elem_of_omap in Hev as ([c items_] & Hg & Hev).
  unfold fetch_event in Hev. simpl in Hev.
  destruct (truthy c) eqn:Htr; [|done]. injection Hev as -> <-.
  apply elem_of_map_to_list in Hg.
  split; [done|]. split; [|split].
  - rewrite <- dom_first_pass. apply elem_of_dom. eauto.
  - apply keys_NoDup.
  - intros k Hk. apply elem_of_keys in Hk. apply has_first_pass.
    by exists items_.
Qed.

(** The fetch of type 1 in the three-row scenario. *)
Lemma fetches_ask_stored_ids_witness :
  truthy (PInt 1) = true
  ∧ PInt 1 ∈ stored_type_tags Sample.Action [Sample.actor] Sample.three_rows
  ∧ NoDup [PStr "10"]
  ∧ ∀ k, k ∈ [PStr "10"] →
      ∃ item gfk, item ∈ Sample.three_rows ∧ gfk ∈ [Sample.actor]
                  ∧ PInt 1 = type_tag Sample.Action item gfk
                  ∧ k = smart_unicode (target_id item gfk).
Proof.
  apply (fetches_ask_stored_ids Sample.env Sample.Action [Sample.actor]
           Sample.three_rows (PInt 1) [PStr "10"]).
  by_computation.
Defined.

(** ** References and their targets (lines 104-125) *)

Lemma build_data_map_truthy env m gfks rows evs dm ct k o :
  build_data_map env m gfks rows = (evs, Ok dm) →
  dm !! (ct, k) = Some o →
  truthy ct = true ∧ obj_pk o = k
  ∧ ∃ items_ c,
      first_pass m gfks rows !! ct = Some items_
      ∧ in_bulk env (keys (first_pass m gfks rows)) !! ct = Some c
      ∧ o ∈ target_objects (model_class c) (keys items_).
Proof.
  intros Hb Hl. apply build_data_map_inv in Hb as (fevs & _ & Hf).
  destruct (fetch_targets_lookup _ _ _ _ _ _ _ _ Hf Hl)
    as [Hempty|(Htr & Hpk & items_ & c & Hin & _ & Hc & Ho)].
  { by rewrite lookup_empty in Hempty. }
  split; [done|]. split; [done|]. exists items_, c.
  split; [by apply elem_of_map_to_list|done].
Qed.

(** X7: a field that stores a target id beside a null, zero or empty type
    tag makes the resolver end with a [KeyError], whatever the database
    holds: no fetch is issued for a falsy type tag, so the second pass
    finds no entry for the reference. *)
Theorem reference_without_type_raises env m gfks rows item gfk :
  item ∈ rows → gfk ∈ gfks →
  target_id item gfk ≠ PNone →
  truthy (type_tag m item gfk) = false →
  ∃ evs rows', resolve_rows env m gfks rows = (evs, (rows', Some KeyError)).
Proof.
  intros Hitem Hgfk Hfk Hfalse.
  destruct (build_data_map env m gfks rows) as [evs [dm|e]] eqn:Hb;
    [|eexists _, _; by eapply resolve_rows_fetch_failure].
  rewrite (resolve_rows_second_pass _ _ _ _ _ _ Hb).
  destruct (second_pass m dm gfks rows) as [rows' err] eqn:Hsp.
  assert (dm !! reference_key m item gfk = None) as Hnone.
  { destruct (dm !! reference_key m item gfk) as [o|] eqn:Hl; [|done].
    destruct (build_data_map_truthy _ _ _ _ _ _ _ _ _ Hb Hl) as [Htr _].
    congruence. }
  rewrite (second_pass_dangling _ _ _ _ _ _ _ _ Hsp Hitem Hgfk Hfk Hnone).
  eauto.
Qed.

(** A target id beside a null type tag. *)
Lemma reference_without_type_raises_witness :
  ∃ evs rows',
    resolve_rows Sample.env Sample.Action [Sample.actor]
      [Sample.half_null_row]
    = (evs, (rows', Some KeyError)).
Proof.
  apply (reference_without_type_raises Sample.env Sample.Action
           [Sample.actor] [Sample.half_null_row] Sample.half_null_row
           Sample.actor).
  - apply list_elem_of_singleton. reflexivity.
  - apply list_elem_of_singleton. reflexivity.
  - discriminate.
  - reflexivity.
Defined.

(** X8: when the resolver completes over fields with distinct names, the
    resolved slot of every field with a non-null target id holds an object
    that the fetch for the row's type tag returned and whose key is the
    text of the stored id. *)
Theorem resolved_target_comes_from_fetch
    env m gfks rows evs rows' i item gfk :
  NoDup (name <$> gfks) →
  resolve_rows env m gfks rows = (evs, (rows', None)) →
  rows !! i = Some item → gfk ∈ gfks →
  target_id item gfk ≠ PNone →
  ∃ item' o items_ c,
    rows' !! i = Some item'
    ∧ resolved item' !! name gfk = Some o
    ∧ obj_pk o = smart_unicode (target_id item gfk)
    ∧ first_pass m gfks rows !! type_tag m item gfk = Some items_
    ∧ in_bulk env (keys (first_pass m gfks rows)) !! type_tag m item gfk
      = Some c
    ∧ o ∈ target_objects (model_class c) (keys items_).
Proof.
  intros Hnd Hrun Hi Hg Hfk.
  apply resolve_rows_complete in Hrun as (dm & Hb & Hsp).
  destruct (second_pass_lookup _ _ _ _ _ _ _ _ Hsp Hi) as (item' & Hi' & _ & H1).
  specialize (H1 eq_refl).
  destruct (resolve_item_slot_set _ _ _ _ _ _ Hnd H1 Hg Hfk) as (o & Hl & Hs).
  destruct (build_data_map_truthy _ _ _ _ _ _ _ _ _ Hb Hl)
    as (_ & Hpk & items_ & c & ? & ? & ?).
  exists item', o, items_, c. done.
Qed.

(** The first of the three rows. *)
Lemma resolved_target_comes_from_fetch_witness :
  ∃ item' o items_ c,
    (resolve_rows Sample.env Sample.Action [Sample.actor]
       Sample.three_rows).2.1 !! 0 = Some item'
    ∧ resolved item' !! "actor" = Some o
    ∧ obj_pk o = PStr "10"
    ∧ first_pass Sample.Action [Sample.actor] Sample.three_rows !! PInt 1
      = Some items_
    ∧ in_bulk Sample.env
        (keys (first_pass Sample.Action [Sample.actor] Sample.three_rows))
        !! PInt 1
      = Some c
    ∧ o ∈ target_objects (model_class c) (keys items_).
Proof.
  apply (resolved_target_comes_from_fetch Sample.env Sample.Action
           [Sample.actor] Sample.three_rows
           (resolve_rows Sample.env Sample.Action [Sample.actor]
              Sample.three_rows).1
           (resolve_rows Sample.env Sample.Action [Sample.actor]
              Sample.three_rows).2.1
           0 (fresh_row (Sample.action (PInt 1) (PInt 1) (PStr "10")))
           Sample.actor).
  - apply NoDup_singleton.
  - by_computation.
  - reflexivity.
  - apply list_elem_of_singleton. reflexivity.
  - discriminate.
Defined.

Lemma second_pass_length m dm gfks rows rows' err :
  second_pass m dm gfks rows = (rows', err) → length rows' = length rows.
Proof.
  revert rows'. induction rows as [|r rows IH]; intros rows'; simpl.
  - by intros [= <- _].
  - destruct (resolve_item m dm gfks r) as [r1 [e1|]].
    + by intros [= <- _].
    + destruct (second_pass m dm gfks rows) as [rest err'].
      intros [= <- <-]. simpl. f_equal. by apply IH.
Qed.

(** X9: however the resolver ends, it returns as many rows as it was
    given, in the same order; each keeps its primary key and its batch
    attachments, and only resolved slots named by a selected field can
    differ from before. *)
Theorem resolver_writes_only_selected_slots env m gfks rows evs rows' err :
  resolve_rows env m gfks rows = (evs, (rows', err)) →
  length rows' = length rows
  ∧ ∀ i item, rows !! i = Some item →
      ∃ item', rows' !! i = Some item'
               ∧ pk item' = pk item
               ∧ attached item' = attached item
               ∧ ∀ n, n ∉ name <$> gfks →
                      resolved item' !! n = resolved item !! n.
Proof.
  unfold resolve_rows.
  destruct (build_data_map env m gfks rows) as [evs0 [dm|e]].
  - intros [= _ Hsp]. split; [by eapply second_pass_length|].
    intros i item Hi.
    destruct (second_pass_lookup _ _ _ _ _ _ _ _ Hsp Hi)
      as (item' & Hi' & [->|[e He]] & _); [by eauto|].
    exists item'. split; [done|].
    destruct (resolve_item_stored _ _ _ _ _ _ He) as (? & _ & ?).
    split; [done|]. split; [done|]. intros n Hn.
    apply (resolve_item_slot_kept _ _ _ _ _ _ _ He).
    intros g Hg Hname. exfalso. apply Hn. rewrite <- Hname.
    by apply list_elem_of_fmap_2.
  - intros [= _ <- _]. split; [done|]. eauto.
Qed.

(** The three rows followed by a dangling one: the resolver stops with an
    error after it has written the slots of the first three. *)
Lemma resolver_writes_only_selected_slots_witness :
  let rows := Sample.three_rows ++ [Sample.dangling_row] in
  let out := resolve_rows Sample.env Sample.Action [Sample.actor] rows in
  length out.2.1 = length rows
  ∧ ∀ i item, rows !! i = Some item →
      ∃ item', out.2.1 !! i = Some item'
               ∧ pk item' = pk item
               ∧ attached item' = attached item
               ∧ ∀ n, n ∉ name <$> [Sample.actor] →
                      resolved item' !! n = resolved item !! n.
Proof.
  apply (resolver_writes_only_selected_slots Sample.env Sample.Action
           [Sample.actor] (Sample.three_rows ++ [Sample.dangling_row])
           (resolve_rows Sample.env Sample.Action [Sample.actor]
              (Sample.three_rows ++ [Sample.dangling_row])).1
           (resolve_rows Sample.env Sample.Action [Sample.actor]
              (Sample.three_rows ++ [Sample.dangling_row])).2.1
           (resolve_rows Sample.env Sample.Action [Sample.actor]
              (Sample.three_rows ++ [Sample.dangling_row])).2.2).
  by_computation.
Defined.

(** ** The manager with the deleted rows (lines 108-111) *)

Lemma fetch_targets_with_objects f ctypes groups dm :
  (∀ ct c, ctypes !! ct = Some c →
           is_Some (all_with_deleted (model_class c))) →
  fetch_targets (with_objects f <$> ctypes) groups dm
  = fetch_targets ctypes groups dm.
Proof.
  intros Hall. revert dm.
  induction groups as [|[ct_id items_] groups IH]; intros dm; simpl; [done|].
  destruct (truthy ct_id); [|apply IH].
  rewrite lookup_fmap. destruct (ctypes !! ct_id) as [c|] eqn:Hc; simpl; [|done].
  destruct (Hall _ _ Hc) as [q Hq].
  unfold target_objects. simpl. rewrite Hq.
  destruct (record_objects _ _ _ _); [|done]. by rewrite IH.
Qed.

(** X10: when every content type that the bulk lookup returns has a
    default manager with [all_with_deleted], the resolver queries that
    manager only: an environment whose [objects] managers answer
    differently gives the same fetches, the same rows and the same
    outcome. *)
Theorem all_with_deleted_is_preferred f env env' m gfks rows :
  (∀ ids, in_bulk env' ids = with_objects f <$> in_bulk env ids) →
  (∀ ids ct c, in_bulk env ids !! ct = Some c →
               is_Some (all_with_deleted (model_class c))) →
  resolve_rows env' m gfks rows = resolve_rows env m gfks rows.
Proof.
  intros Hbulk Hall. unfold resolve_rows, build_data_map.
  rewrite Hbulk, fetch_targets_with_objects; [done|].
  intros ct c. apply Hall.
Qed.

(** The target of type 1 is deleted: the resolver finds it, and finds it
    too when the [objects] managers return nothing. *)
Lemma all_with_deleted_is_preferred_witness :
  resolve_rows SoftDelete.env_no_objects Sample.Action [Sample.actor]
    Sample.three_rows
  = resolve_rows SoftDelete.env Sample.Action [Sample.actor]
      Sample.three_rows.
Proof.
  apply (all_with_deleted_is_preferred (λ _, []) SoftDelete.env
           SoftDelete.env_no_objects Sample.Action [Sample.actor]
           Sample.three_rows).
  - reflexivity.
  - intros ids ct c Hc. simpl in Hc.
    apply map_lookup_filter_Some in Hc as [Hc _].
    unfold SoftDelete.content_types in Hc.
    apply lookup_insert_Some in Hc as [[_ <-]|[_ Hc]]; [by eexists|].
    apply lookup_singleton_Some in Hc as [_ <-]. by eexists.
Defined.

(** ** Completion *)

(** X11: the resolver completes without an error exactly on the row sets
    with referential integrity: every truthy type tag of the grouping has
    a content type whose fetch returns only requested keys, and every
    non-null reference has a truthy type tag and a fetched target. *)
Theorem resolver_completes_iff_integral env m gfks rows :
  integral env m gfks rows ↔
  ∃ evs rows', resolve_rows env m gfks rows = (evs, (rows', None)).
Proof.
  split.
  - apply resolve_rows_completes.
  - intros (evs & rows' & Hrun). by eapply resolve_rows_complete_integral.
Qed.

(** * Further properties of the query sets *)

(** ** The result of the resolver (lines 79-127) *)

(** X12: the query set that a successful call returns is evaluated:
    iterating it yields the rows the resolver left, issues no query and no
    fetch, and changes nothing in the store. *)
Theorem resolved_query_set_is_evaluated env self args w this qs w' :
  heap w !! self = Some this →
  klass this = GFKQuerySet_class →
  FETCH_RELATIONS env = true →
  USE_PREFETCH env && has_prefetch_related env = false →
  fetch_generic_relations env self args w = (Ok qs, w') →
  GFKQuerySet.iter env qs w'
  = (Ok (resolve_rows env (model this) (gfk_fields (model this) args)
           (iterated env (cloned this None)).2).2.1,
     w').
Proof.
  intros Hself Hk Hfetch Hpre Hrun.
  destruct (fetch_generic_relations_resolves _ _ _ _ _ _ _
              Hself Hk Hfetch Hpre Hrun)
    as (evs & rows' & clone & Hres & Hclone & Hcache & _).
  unfold GFKQuerySet.iter.
  rewrite (bind_run _ _ _ _ _ (deref_run _ _ _ Hclone)).
  by rewrite Hcache, Hres.
Qed.

(** Iterating the result of the call on all actions. *)
Lemma resolved_query_set_is_evaluated_witness :
  let w' := (fetch_generic_relations Sample.env 0 [] Sample.world).2 in
  GFKQuerySet.iter Sample.env 1 w'
  = (Ok (resolve_rows Sample.env Sample.Action
           (gfk_fields Sample.Action [])
           (iterated Sample.env (cloned Sample.actions None)).2).2.1,
     w').
Proof.
  apply (resolved_query_set_is_evaluated Sample.env 0 [] Sample.world
           Sample.actions 1).
  - reflexivity.
  - reflexivity.
  - reflexivity.
  - reflexivity.
  - reflexivity.
Defined.

Lemma filter_all {A} (P : A → Prop) `{∀ x, Decision (P x)} (l : list A) :
  Forall P l → filter P l = l.
Proof.
  induction 1 as [|x l Hx _ IH]; [done|]. by rewrite filter_cons_True, IH.
Qed.

Lemma build_data_map_fetch_count env m gfks rows evs r :
  build_data_map env m gfks rows = (evs, r) →
  ∃ fevs,
    evs = ContentTypeLookup (keys (first_pass m gfks rows)) :: fevs
    ∧ Forall (λ e, is_secondary_fetch e) fevs
    ∧ length fevs
      ≤ size (filter (λ c, truthy c = true) (stored_type_tags m gfks rows)).
Proof.
  intros Hb. apply build_data_map_inv in Hb as (fevs & -> & Hf).
  exists fevs. split; [done|].
  apply fetch_targets_events in Hf as [Hpre _].
  assert (Forall (λ e, is_secondary_fetch e)
            (omap fetch_event (map_to_list (first_pass m gfks rows)))) as Hall.
  { apply Forall_forall. intros e He.
    by apply fetch_events_truthy in He as (c & ids & -> & _). }
  split.
  - destruct Hpre as [rest Hrest]. rewrite Hrest in Hall.
    by apply Forall_app in Hall as [? _].
  - etransitivity; [by apply prefix_length|].
    rewrite length_fetch_events by apply NoDup_fst_map_to_list.
    fold (keys (first_pass m gfks rows)).
    by rewrite keys_dom, dom_first_pass.
Qed.

(** X13: however a call of the resolver ends, with eager resolution
    enabled and no delegation, it adds to the log exactly one primary
    query, one batch fetch for each specification attached to the
    receiver, one bulk lookup of content types, and at most one secondary
    fetch for each distinct truthy type tag stored in the rows. *)
Theorem resolver_query_budget env self args w this r w' :
  heap w !! self = Some this →
  klass this = GFKQuerySet_class →
  FETCH_RELATIONS env = true →
  USE_PREFETCH env && has_prefetch_related env = false →
  fetch_generic_relations env self args w = (r, w') →
  ∃ evs,
    log w' = log w ++ evs
    ∧ length (filter (λ e, is_primary_query e) evs) = 1
    ∧ length (filter (λ e, is_batch_fetch e) evs)
      = size (attached_batches this)
    ∧ length (filter (λ e, is_content_type_lookup e) evs) = 1
    ∧ length (secondary_fetches evs)
      ≤ size (filter (λ c, truthy c = true)
                (stored_type_tags (model this)
                   (gfk_fields (model this) args)
                   (iterated env (cloned this None)).2)).
Proof.
  intros Hself Hk Hfetch Hpre.
  rewrite (dispatch_GFKQuerySet _ _ _ _ _ Hself Hk).
  rewrite (fetch_generic_relations_run _ _ _ _ _ Hself Hfetch Hpre). simpl.
  intros [= _ <-]. simpl. eexists. split; [done|].
  set (rows := (iterated env (cloned this None)).2).
  set (gfks := gfk_fields (model this) args).
  pose proof (resolve_rows_events env (model this) gfks rows) as Hev.
  destruct (build_data_map env (model this) gfks rows) as [evs0 r0] eqn:Hb.
  simpl in Hev. rewrite Hev.
  destruct (build_data_map_fetch_count _ _ _ _ _ _ Hb)
    as (fevs & -> & Hsec & Hlen).
  set (bs := elements (attached_batches this)).
  assert ((iterated env (cloned this None)).1
          = PrimaryQuery :: batch_fetches bs) as ->.
  { unfold bs, iterated, super_iterator. rewrite cloned_klass, Hk.
    rewrite <- (cloned_attached_batches this None). unfold attached_batches.
    destruct (_batches (cloned this None)) as [b|]; simpl.
    - case_decide as Hb0; [|done]. subst b. by rewrite elements_empty.
    - by rewrite elements_empty. }
  assert (length bs = size (attached_batches this)) as Hbs by done.
  assert (Forall (λ e, is_batch_fetch e) (batch_fetches bs)) as Hbatch.
  { unfold batch_fetches. apply Forall_fmap, Forall_forall. done. }
  assert (∀ P : event → bool,
            (∀ e, is_batch_fetch e → ¬ P e) →
            filter (λ e, P e) (batch_fetches bs) = []) as Hnob.
  { intros P HP. apply filter_nil_Forall.
    eapply Forall_impl; [exact Hbatch|]. intros e. apply HP. }
  assert (∀ P : event → bool,
            (∀ e, is_secondary_fetch e → ¬ P e) →
            filter (λ e, P e) fevs = []) as Hnos.
  { intros P HP. apply filter_nil_Forall.
    eapply Forall_impl; [exact Hsec|]. intros e. apply HP. }
  rewrite <- !app_comm_cons. repeat split.
  - rewrite filter_cons_True by (simpl; exact I). rewrite filter_app.
    rewrite Hnob by (intros []; simpl; tauto). rewrite filter_cons_False by (simpl; tauto).
    rewrite Hnos by (intros []; simpl; tauto). done.
  - rewrite filter_cons_False by (simpl; tauto). rewrite filter_app.
    rewrite (filter_all _ _ Hbatch).
    rewrite filter_cons_False by (simpl; tauto).
    rewrite Hnos by (intros []; simpl; tauto). rewrite app_nil_r.
    unfold batch_fetches. by rewrite length_fmap.
  - rewrite filter_cons_False by (simpl; tauto). rewrite filter_app.
    rewrite Hnob by (intros []; simpl; tauto). rewrite filter_cons_True by (simpl; exact I).
    rewrite Hnos by (intros []; simpl; tauto). done.
  - unfold secondary_fetches.
    rewrite filter_cons_False by (simpl; tauto). rewrite filter_app.
    rewrite Hnob by (intros []; simpl; tauto). rewrite filter_cons_False by (simpl; tauto).
    by rewrite (filter_all _ _ Hsec).
Qed.

(** The call on all actions: one primary query, no batch fetch, one bulk
    lookup and two secondary fetches for two type tags. *)
Lemma resolver_query_budget_witness :
  let out := fetch_generic_relations Sample.env 0 [] Sample.world in
  ∃ evs,
    log out.2 = log Sample.world ++ evs
    ∧ length (filter (λ e, is_primary_query e) evs) = 1
    ∧ length (filter (λ e, is_batch_fetch e) evs)
      = size (attached_batches Sample.actions)
    ∧ length (filter (λ e, is_content_type_lookup e) evs) = 1
    ∧ length (secondary_fetches evs)
      ≤ size (filter (λ c, truthy c = true)
                (stored_type_tags Sample.Action (gfk_fields Sample.Action [])
                   (iterated Sample.env (cloned Sample.actions None)).2)).
Proof.
  apply (resolver_query_budget Sample.env 0 [] Sample.world Sample.actions
           (fetch_generic_relations Sample.env 0 [] Sample.world).1
           (fetch_generic_relations Sample.env 0 [] Sample.world).2).
  - reflexivity.
  - reflexivity.
  - reflexivity.
  - reflexivity.
  - apply surjective_pairing.
Defined.

(** ** Delegation to the host's prefetch (lines 90-91) *)

(** X14: with eager resolution, [USE_PREFETCH] and a host that has
    [prefetch_related], the call issues no query and no fetch of its own:
    it returns a new, unevaluated query set that carries the receiver's
    specifications and asks the host to prefetch the names of the selected
    fields; the receiver stays as it was. *)
Theorem prefetch_is_delegated env self args w this :
  heap w !! self = Some this →
  klass this = GFKQuerySet_class →
  FETCH_RELATIONS env = true →
  USE_PREFETCH env = true →
  has_prefetch_related env = true →
  ∃ qs w' q,
    fetch_generic_relations env self args w = (Ok qs, w')
    ∧ log w' = log w
    ∧ qs ≠ self
    ∧ heap w' !! self = Some this
    ∧ heap w' !! qs = Some q
    ∧ _result_cache q = None
    ∧ attached_batches q = attached_batches this
    ∧ _prefetch_related_lookups q
      = _prefetch_related_lookups this
        ++ (name <$> gfk_fields (model this) args).
Proof.
  intros Hself Hk Hfetch Huse Hhas.
  assert (self < length (heap w)) as Hlt by (by eapply lookup_lt_Some).
  rewrite (dispatch_GFKQuerySet _ _ _ _ _ Hself Hk).
  rewrite (fetch_generic_relations_prefetch_run _ _ _ _ _ Hself Hfetch)
    by (by rewrite Huse, Hhas).
  eexists _, _, _. split; [done|]. simpl.
  split; [done|]. split; [lia|].
  split; [by apply lookup_app_l_Some|]. split.
  { rewrite (lookup_app_r (heap w)) by lia.
    by replace (S (length (heap w)) - length (heap w)) with 1 by lia. }
  simpl. split; [apply cloned_result_cache|]. split.
  - unfold attached_batches. simpl.
    fold (attached_batches (cloned (cloned this None) None)).
    by rewrite !cloned_attached_batches.
  - f_equal. unfold cloned.
    destruct (_batches this) as [b|]; simpl; [|done].
    destruct (decide (b = ∅)); simpl; [done|]. by rewrite decide_False.
Qed.

(** The call on all actions with delegation enabled. *)
Lemma prefetch_is_delegated_witness :
  ∃ qs w' q,
    fetch_generic_relations Sample.env_prefetch 0 [] Sample.world
    = (Ok qs, w')
    ∧ log w' = log Sample.world
    ∧ qs ≠ 0
    ∧ heap w' !! 0 = Some Sample.actions
    ∧ heap w' !! qs = Some q
    ∧ _result_cache q = None
    ∧ attached_batches q = attached_batches Sample.actions
    ∧ _prefetch_related_lookups q
      = _prefetch_related_lookups Sample.actions
        ++ (name <$> gfk_fields Sample.Action []).
Proof.
  apply (prefetch_is_delegated Sample.env_prefetch 0 [] Sample.world
           Sample.actions).
  - reflexivity.
  - reflexivity.
  - reflexivity.
  - reflexivity.
  - reflexivity.
Defined.

(** ** Empty query sets (lines 15-24 and 129-135) *)

Lemma none_run self w this :
  heap w !! self = Some this →
  GFKQuerySet.none self w
  = (Ok (length (heap w)),
     {| heap := heap w ++ [cloned this (Some EmptyGFKQuerySet_class)];
        log := log w |}).
Proof. intros Hself. unfold GFKQuerySet.none. by apply clone_run. Qed.

Lemma cloned_klass_given qs k : klass (cloned qs (Some k)) = k.
Proof. unfold cloned. destruct (_batches qs); [case_decide|]; done. Qed.

Lemma dispatch_EmptyGFKQuerySet env self args w this :
  heap w !! self = Some this → klass this = EmptyGFKQuerySet_class →
  fetch_generic_relations env self args w
  = match args with
    | [] => (Ok self, w)
    | _ => (Raise TypeError, w)
    end.
Proof.
  intros Hself Hk. unfold fetch_generic_relations.
  rewrite (bind_run _ _ _ _ _ (deref_run _ _ _ Hself)), Hk.
  by destruct args.
Qed.

(** X15: [none()] builds a new query set of the empty class on the same
    model and with the receiver's specifications, logs nothing and leaves
    the receiver as it was; on that query set the resolver called without
    field names returns the query set itself and touches neither store nor
    log, and called with field names it raises a [TypeError], the method
    of the empty class taking none. *)
Theorem none_then_fetch_generic_relations env self w this :
  heap w !! self = Some this →
  ∃ empty w' q,
    GFKQuerySet.none self w = (Ok empty, w')
    ∧ empty ≠ self
    ∧ log w' = log w
    ∧ heap w' !! self = Some this
    ∧ heap w' !! empty = Some q
    ∧ klass q = EmptyGFKQuerySet_class
    ∧ model q = model this
    ∧ attached_batches q = attached_batches this
    ∧ fetch_generic_relations env empty [] w' = (Ok empty, w')
    ∧ ∀ args, args ≠ [] →
        fetch_generic_relations env empty args w' = (Raise TypeError, w').
Proof.
  intros Hself.
  assert (self < length (heap w)) as Hlt by (by eapply lookup_lt_Some).
  rewrite (none_run _ _ _ Hself).
  set (q := cloned this (Some EmptyGFKQuerySet_class)).
  set (w' := {| heap := heap w ++ [q]; log := log w |}).
  assert (heap w' !! length (heap w) = Some q) as Hq
    by (by apply list_lookup_middle).
  assert (klass q = EmptyGFKQuerySet_class) as Hk
    by apply cloned_klass_given.
  exists (length (heap w)), w', q. split; [done|]. split; [lia|].
  split; [done|]. split; [by apply lookup_app_l_Some|]. split; [done|].
  split; [done|]. split; [apply cloned_model|].
  split; [apply cloned_attached_batches|]. split.
  - by rewrite (dispatch_EmptyGFKQuerySet _ _ _ _ _ Hq Hk).
  - intros args Hargs. rewrite (dispatch_EmptyGFKQuerySet _ _ _ _ _ Hq Hk).
    by destruct args.
Qed.

(** [none()] on all actions. *)
Lemma none_then_fetch_generic_relations_witness :
  ∃ empty w' q,
    GFKQuerySet.none 0 Sample.world = (Ok empty, w')
    ∧ empty ≠ 0
    ∧ log w' = log Sample.world
    ∧ heap w' !! 0 = Some Sample.actions
    ∧ heap w' !! empty = Some q
    ∧ klass q = EmptyGFKQuerySet_class
    ∧ model q = model Sample.actions
    ∧ attached_batches q = attached_batches Sample.actions
    ∧ fetch_generic_relations Sample.env empty [] w' = (Ok empty, w')
    ∧ ∀ args, args ≠ [] →
        fetch_generic_relations Sample.env empty args w'
        = (Raise TypeError, w').
Proof.
  apply (none_then_fetch_generic_relations Sample.env 0 Sample.world
           Sample.actions).
  reflexivity.
Defined.

(** X16: the manager's [none()] allocates a query set of the model and its
    empty clone, leaving the objects of the store as they were and the log
    untouched; the query set it returns is of the empty class, carries no
    specification, yields no row when iterated without any query, and the
    resolver on it returns it unchanged. *)
Theorem manager_none_is_empty env m q w :
  ∃ empty w' qs,
    GFKManager.none m q w = (Ok empty, w')
    ∧ heap w `prefix_of` heap w'
    ∧ log w' = log w
    ∧ heap w' !! empty = Some qs
    ∧ klass qs = EmptyGFKQuerySet_class
    ∧ model qs = m
    ∧ attached_batches qs = ∅
    ∧ fetch_generic_relations env empty [] w' = (Ok empty, w')
    ∧ ∃ w'', GFKQuerySet.iter env empty w' = (Ok [], w'')
             ∧ log w'' = log w.
Proof.
  unfold GFKManager.none, GFKManager.get_query_set.
  set (fresh := {| klass := GFKQuerySet_class; model := m; query := q;
                   _batches := None; _result_cache := None;
                   _prefetch_related_lookups := [] |}).
  assert (alloc fresh w
          = (Ok (length (heap w)),
             {| heap := heap w ++ [fresh]; log := log w |})) as Halloc by done.
  rewrite (bind_run _ _ _ _ _ Halloc).
  set (w1 := {| heap := heap w ++ [fresh]; log := log w |}).
  assert (heap w1 !! length (heap w) = Some fresh) as Hfresh
    by (by apply list_lookup_middle).
  rewrite (none_run _ _ _ Hfresh).
  set (e := cloned fresh (Some EmptyGFKQuerySet_class)).
  set (w' := {| heap := heap w1 ++ [e]; log := log w1 |}).
  assert (heap w' !! length (heap w1) = Some e) as He
    by (by apply list_lookup_middle).
  exists (length (heap w1)), w', e. split; [done|].
  split; [simpl; by apply prefix_app_r, prefix_app_r|].
  split; [done|]. split; [done|]. split; [done|]. split; [done|].
  split; [done|]. split.
  - by rewrite (dispatch_EmptyGFKQuerySet _ _ _ _ _ He).
  - unfold w'. rewrite (iter_last_run env (heap w1) e (log w1)) by done.
    eexists. split; [done|]. simpl. by rewrite app_nil_r.
Qed.

(** ** Accumulating specifications (lines 56-64) *)





(** ** Resolving again *)

Lemma cloned_set_result_cache rows qs klass' :
  cloned (set_result_cache rows qs) klass' = cloned qs klass'.
Proof. done. Qed.

Lemma cloned_cloned qs : cloned (cloned qs None) None = cloned qs None.
Proof.
  unfold cloned.
  destruct (_batches qs) as [s|]; [|done].
  destruct (decide (s = ∅)) as [He|He]; simpl; [done|].
  by rewrite decide_False.
Qed.

(** X18: the query set that a successful call returns does not carry its
    evaluation into a further call: resolving it again, for any field
    names, issues the primary query and every fetch once more, exactly as
    the same call on the original receiver does, and stores the same
    object with the same outcome. *)
Theorem resolving_again_starts_afresh env self args args' w this qs w' :
  heap w !! self = Some this →
  klass this = GFKQuerySet_class →
  FETCH_RELATIONS env = true →
  USE_PREFETCH env && has_prefetch_related env = false →
  fetch_generic_relations env self args w = (Ok qs, w') →
  ∃ err obj evs,
    fetch_generic_relations env self args' w
    = (match err with Some e => Raise e | None => Ok (length (heap w)) end,
       {| heap := heap w ++ [obj]; log := log w ++ evs |})
    ∧ fetch_generic_relations env qs args' w'
      = (match err with Some e => Raise e | None => Ok (length (heap w')) end,
         {| heap := heap w' ++ [obj]; log := log w' ++ evs |})
    ∧ PrimaryQuery ∈ evs
    ∧ _result_cache obj
      = Some (resolve_rows env (model this) (gfk_fields (model this) args')
                (iterated env (cloned this None)).2).2.1.
Proof.
  intros Hself Hk Hfetch Hpre Hrun.
  rewrite (dispatch_GFKQuerySet _ _ _ _ _ Hself Hk) in Hrun.
  rewrite (fetch_generic_relations_run _ _ _ _ _ Hself Hfetch Hpre) in Hrun.
  simpl in Hrun.
  set (clone := cloned this None) in *.
  set (out := resolve_rows env (model this) (gfk_fields (model this) args)
                (iterated env clone).2) in *.
  destruct (out.2.2) as [e|] eqn:Herr; [done|].
  injection Hrun as <- <-.
  set (first := set_result_cache (Some out.2.1) clone).
  set (w' := {| heap := heap w ++ [first];
                log := log w ++ (iterated env clone).1 ++ out.1 |}).
  assert (heap w' !! length (heap w) = Some first) as Hqs
    by (by apply list_lookup_middle).
  assert (klass first = GFKQuerySet_class) as Hk'
    by (unfold first, clone; simpl; by rewrite cloned_klass).
  assert (model first = model this) as Hm
    by (unfold first, clone; simpl; by rewrite cloned_model).
  assert (cloned first None = clone) as Hc
    by (unfold first, clone; by rewrite cloned_set_result_cache, cloned_cloned).
  set (out' := resolve_rows env (model this) (gfk_fields (model this) args')
                 (iterated env clone).2).
  exists out'.2.2, (set_result_cache (Some out'.2.1) clone),
    ((iterated env clone).1 ++ out'.1).
  split; [|split; [|split]].
  - rewrite (dispatch_GFKQuerySet _ _ _ _ _ Hself Hk).
    by rewrite (fetch_generic_relations_run _ _ _ _ _ Hself Hfetch Hpre).
  - rewrite (dispatch_GFKQuerySet _ _ _ _ _ Hqs Hk').
    rewrite (fetch_generic_relations_run _ _ _ _ _ Hqs Hfetch Hpre).
    by rewrite Hm, Hc.
  - apply elem_of_app. left. unfold iterated, clone.
    rewrite <- (cloned_klass this) in Hk. fold clone in Hk |- *.
    unfold super_iterator. rewrite Hk.
    destruct (_batches clone) as [b|]; [case_decide|]; simpl;
      apply elem_of_cons; by left.
  - done.
Qed.

(** The call on all actions, repeated on its result for the field
    [actor]. *)
Lemma resolving_again_starts_afresh_witness :
  let w' := (fetch_generic_relations Sample.env 0 [] Sample.world).2 in
  ∃ err obj evs,
    fetch_generic_relations Sample.env 0 ["actor"] Sample.world
    = (match err with
       | Some e => Raise e
       | None => Ok (length (heap Sample.world))
       end,
       {| heap := heap Sample.world ++ [obj];
          log := log Sample.world ++ evs |})
    ∧ fetch_generic_relations Sample.env 1 ["actor"] w'
      = (match err with Some e => Raise e | None => Ok (length (heap w')) end,
         {| heap := heap w' ++ [obj]; log := log w' ++ evs |})
    ∧ PrimaryQuery ∈ evs
    ∧ _result_cache obj
      = Some (resolve_rows Sample.env (model Sample.actions)
                (gfk_fields (model Sample.actions) ["actor"])
                (iterated Sample.env (cloned Sample.actions None)).2).2.1.
Proof.
  apply (resolving_again_starts_afresh Sample.env 0 [] ["actor"] Sample.world
           Sample.actions 1
           (fetch_generic_relations Sample.env 0 [] Sample.world).2).
  - reflexivity.
  - reflexivity.
  - reflexivity.
  - reflexivity.
  - reflexivity.
Defined.
